(** * A sparse-map quantum state simulator: model and properties

    Shallow embedding of [state.py]: basis states are bit lists, the
    amplitude map is a PyFunctional sequence of (basis state, amplitude)
    pairs, gates rewrite that sequence, and [run] samples measurement
    outcomes on private copies of a prepared state. *)

From Stdlib Require Import Reals Lra.
From Stdlib Require Import String Ascii DecimalString.
From Stdlib Require Import List ZArith Lia Bool Permutation Sorted.
From Stdlib Require Import Setoid Ring.
Import ListNotations.

Set Implicit Arguments.

Abbreviation length := Datatypes.length.

(** ** Exceptions and results *)

(** The Python exceptions that the modelled code can raise.  The message
    of an exception raised by a library is abridged. *)
Inductive exn : Type :=
| AssertionError
| ValueError (msg : string)
| IndexError (msg : string)
| ZeroDivisionError (msg : string).

Inductive result (A : Type) : Type :=
| Ok (a : A)
| Raise (e : exn).

Arguments Ok {A} a.
Arguments Raise {A} e.

Definition rbind {A B} (r : result A) (k : A -> result B) : result B :=
  match r with
  | Ok a => k a
  | Raise e => Raise e
  end.

Notation "x <- r ;; k" := (rbind r (fun x => k))
  (at level 61, r at next level, right associativity).

Definition is_ok {A} (r : result A) : Prop := exists a, r = Ok a.
Definition is_raise {A} (r : result A) : Prop := exists e, r = Raise e.

(** ** Python sequence indexing *)

(** [x[i]] for a sequence of length [len]: a non-negative index counts from
    the left, a negative one from the right; anything else is out of
    range. *)
Definition py_index (len : nat) (i : Z) : option nat :=
  if ((0 <=? i) && (i <? Z.of_nat len))%Z then Some (Z.to_nat i)
  else if ((i <? 0) && (- Z.of_nat len <=? i))%Z
       then Some (Z.to_nat (Z.of_nat len + i))
       else None.

Fixpoint update {A} (l : list A) (k : nat) (v : A) : list A :=
  match l, k with
  | [], _ => []
  | _ :: r, O => v :: r
  | a :: r, S k' => a :: update r k' v
  end.

Definition getitem {A} (x : list A) (i : Z) : result A :=
  match py_index (length x) i with
  | Some k =>
      match nth_error x k with
      | Some v => Ok v
      | None => Raise (IndexError "index out of range"%string)
      end
  | None => Raise (IndexError "index out of range"%string)
  end.

Definition setitem {A} (x : list A) (i : Z) (v : A) : result (list A) :=
  match py_index (length x) i with
  | Some k => Ok (update x k v)
  | None => Raise (IndexError "assignment index out of range"%string)
  end.

(** ** Basis states *)

(** A [frozenbitarray]: index 0 is the leftmost bit. *)
Definition bitarray := list bool.

Definition bitarray_eq_dec : forall x y : bitarray, {x = y} + {x <> y} :=
  list_eq_dec Bool.bool_dec.

(** [set_bit x i v]: copy, assign position [i], freeze. *)
Definition set_bit (x : bitarray) (i : Z) (v : bool) : result bitarray :=
  setitem x i v.

Fixpoint xor_bits (x m : bitarray) : bitarray :=
  match x, m with
  | a :: x', b :: m' => xorb a b :: xor_bits x' m'
  | _, _ => []
  end.

(** ["0" * i + "1" + "0" * (len(x) - i - 1)]: a repetition count that is
    negative gives the empty string. *)
Definition flip_mask (len : nat) (i : Z) : bitarray :=
  repeat false (Z.to_nat i) ++ [true]
    ++ repeat false (Z.to_nat (Z.of_nat len - i - 1)).

(** [flip x i]: xor with the mask; [^] on bit arrays of different lengths
    raises [ValueError]. *)
Definition flip (x : bitarray) (i : Z) : result bitarray :=
  let mask := flip_mask (length x) i in
  if Nat.eqb (length x) (length mask) then Ok (xor_bits x mask)
  else Raise (ValueError "bitarrays of equal length expected"%string).

(** [format(i, "0{w}b")] for [0 <= i < 2**w]: the [w] binary digits of [i],
    most significant first. *)
Fixpoint bin_digits (w : nat) (i : nat) : bitarray :=
  match w with
  | O => []
  | S w' => bin_digits w' (Nat.div2 i) ++ [Nat.odd i]
  end.

(** ** Lazy sequences

    A PyFunctional [seq] is lazy: [smap], [flatten] and [reduce_by_key]
    only record a transformation, and the pipeline runs each time the
    sequence is iterated.  Iterating yields the transformed elements one
    by one and stops at the first exception raised by a recorded function.
    [Seq T] is that outcome: the elements produced, ended either normally
    or by the exception. *)
Inductive Seq (T : Type) : Type :=
| snil
| scons (x : T) (s : Seq T)
| sraise (e : exn).

Arguments snil {T}.
Arguments scons {T} x s.
Arguments sraise {T} e.

(** [seq(l)] for a list [l]. *)
Fixpoint of_list {T} (l : list T) : Seq T :=
  match l with
  | [] => snil
  | x :: r => scons x (of_list r)
  end.

(** [list(s)]: iterate to the end; the exception, if any, propagates. *)
Fixpoint force {T} (s : Seq T) : result (list T) :=
  match s with
  | snil => Ok []
  | scons x r => l <- force r ;; Ok (x :: l)
  | sraise e => Raise e
  end.

(** [s.smap(f)] (and [map]): [f] runs when the element is demanded. *)
Fixpoint smap {T U} (f : T -> result U) (s : Seq T) : Seq U :=
  match s with
  | snil => snil
  | scons x r =>
      match f x with
      | Ok y => scons y (smap f r)
      | Raise e => sraise e
      end
  | sraise e => sraise e
  end.

Fixpoint sapp {T} (l : list T) (s : Seq T) : Seq T :=
  match l with
  | [] => s
  | x :: r => scons x (sapp r s)
  end.

(** [s.flatten()]: chain the element lists. *)
Fixpoint flatten {T} (s : Seq (list T)) : Seq T :=
  match s with
  | snil => snil
  | scons l r => sapp l (flatten r)
  | sraise e => sraise e
  end.

Section ReduceByKey.
Variable V : Type.
Variable f : V -> V -> V.

(** One step of the dictionary build-up: an existing key keeps its
    position and gets [f old v]; a new key is appended. *)
Fixpoint rbk_insert (acc : list (bitarray * V)) (k : bitarray) (v : V)
  : list (bitarray * V) :=
  match acc with
  | [] => [(k, v)]
  | (k', v') :: r =>
      if bitarray_eq_dec k' k then (k', f v' v) :: r
      else (k', v') :: rbk_insert r k v
  end.

Definition reduce_by_key_impl (l : list (bitarray * V))
  : list (bitarray * V) :=
  fold_left (fun acc kv => rbk_insert acc (fst kv) (snd kv)) l [].

(** [s.reduce_by_key(f)]: consumes the whole input when iterated. *)
Definition reduce_by_key (s : Seq (bitarray * V)) : Seq (bitarray * V) :=
  match force s with
  | Ok l => of_list (reduce_by_key_impl l)
  | Raise e => sraise e
  end.
End ReduceByKey.

(** ** Numbers

    Python's [float] and [complex] values, with the operations the
    simulator applies to them.  The operations are kept abstract: the
    structural results below hold for any arithmetic, the algebraic ones
    for an exact one ([ExactNum]). *)
Class Num (C : Type) : Type := {
  zero : C;                    (* 0, 0.0 *)
  one : C;                     (* 1, 1.0 *)
  add : C -> C -> C;
  mul : C -> C -> C;
  sub : C -> C -> C;
  opp : C -> C;
  imag : C;                    (* 1j *)
  phase : C;                   (* exp(1j * pi / 4) *)
  inv_sqrt2 : C;               (* 1 / sqrt(2) *)
  abs2 : C -> C;               (* abs(a) ** 2 *)
  sqrt : C -> C;
  div : C -> C -> C;
  eqb_zero : C -> bool;        (* d == 0 *)
  ltb : C -> C -> bool;        (* x < y *)
  leb : C -> C -> bool         (* x <= y *)
}.

(** [x ** b] for a bit [b]. *)
Definition pow_bit {C} `{Num C} (x : C) (b : bool) : C :=
  if b then x else one.

(** [a / d]: a zero divisor raises. *)
Definition py_div {C} `{Num C} (a d : C) : result C :=
  if eqb_zero d then Raise (ZeroDivisionError "division by zero"%string)
  else Ok (div a d).

(** [math.sqrt(p)]: a negative argument raises. *)
Definition py_sqrt {C} `{Num C} (p : C) : result C :=
  if ltb p zero then Raise (ValueError "math domain error"%string)
  else Ok (sqrt p).

(** [sorted(l)]: a stable sort for the order [le]. *)
Fixpoint insert_sorted {A} (le : A -> A -> bool) (a : A) (l : list A)
  : list A :=
  match l with
  | [] => [a]
  | b :: r => if le a b then a :: l else b :: insert_sorted le a r
  end.

Definition sorted {A} (le : A -> A -> bool) (l : list A) : list A :=
  fold_right (insert_sorted le) [] l.

(** A Python [set] of integers, as a duplicate-free list. *)
Fixpoint set_add (j : Z) (s : list Z) : list Z :=
  match s with
  | [] => [j]
  | i :: r => if Z.eqb i j then s else i :: set_add j r
  end.

(** ** The state and its gates *)

Section Simulator.
Context {C : Type} {num : Num C}.

(** One entry of the amplitude map. *)
Definition entry : Type := bitarray * C.

Record State : Type := mkState {
  n_qubits : Z;
  n_bits : Z;
  state : Seq entry;
  cbits : list Z;
  measurement_qubits : list Z;
  measure_all_flag : bool
}.

Definition with_state (st : State) (s : Seq entry) : State :=
  {| n_qubits := n_qubits st; n_bits := n_bits st; state := s;
     cbits := cbits st; measurement_qubits := measurement_qubits st;
     measure_all_flag := measure_all_flag st |}.

(** The list built by [__init__]: one entry per value of
    [range(2 ** n_qubits)], amplitude 1.0 for [i == 0] and 0.0
    otherwise. *)
Definition initial_entries (n : nat) : list entry :=
  map (fun i => (bin_digits n i, if Nat.eqb i 0 then one else zero))
      (seq 0 (2 ^ n)).

(** [State(n_qubits, n_bits)]. *)
Definition construct (nq nb : Z) : result State :=
  if ((0 <? nq) && (0 <=? nb))%Z then
    Ok {| n_qubits := nq; n_bits := nb;
          state := of_list (initial_entries (Z.to_nat nq));
          cbits := repeat 0%Z (Z.to_nat nb);
          measurement_qubits := [];
          measure_all_flag := false |}
  else Raise AssertionError.

(** The functions handed to [smap] by the gates. *)
Definition x_fn (j : Z) (e : entry) : result entry :=
  let (b, a) := e in
  b' <- flip b j ;; Ok (b', a).

Definition cx_fn (j k : Z) (e : entry) : result entry :=
  let (b, a) := e in
  bj <- getitem b j ;;
  b' <- (if negb bj then Ok b else flip b k) ;;
  Ok (b', a).

Definition s_fn (j : Z) (e : entry) : result entry :=
  let (b, a) := e in
  bj <- getitem b j ;; Ok (b, mul (pow_bit imag bj) a).

Definition t_fn (j : Z) (e : entry) : result entry :=
  let (b, a) := e in
  bj <- getitem b j ;; Ok (b, mul (pow_bit phase bj) a).

Definition h_fn (j : Z) (e : entry) : result (list entry) :=
  let (b, a) := e in
  b0 <- set_bit b j false ;;
  b1 <- set_bit b j true ;;
  bj <- getitem b j ;;
  Ok [(b0, mul a inv_sqrt2);
      (b1, mul (mul a inv_sqrt2) (pow_bit (opp one) bj))].

(** The gate methods.  Each one assigns a new lazy sequence to
    [self.state] and returns [self]; nothing is evaluated by the call. *)
Definition x (j : Z) (st : State) : State :=
  with_state st (smap (x_fn j) (state st)).

Definition cx (j k : Z) (st : State) : State :=
  with_state st (smap (cx_fn j k) (state st)).

Definition s (j : Z) (st : State) : State :=
  with_state st (smap (s_fn j) (state st)).

Definition t (j : Z) (st : State) : State :=
  with_state st (smap (t_fn j) (state st)).

Definition h (j : Z) (st : State) : State :=
  with_state st
    (reduce_by_key add (flatten (smap (h_fn j) (state st)))).

(** [measure(j, cbit)]: only records [j]. *)
Definition measure (j : Z) (cbit : option Z) (st : State) : State :=
  {| n_qubits := n_qubits st; n_bits := n_bits st; state := state st;
     cbits := cbits st;
     measurement_qubits := set_add j (measurement_qubits st);
     measure_all_flag := measure_all_flag st |}.

Definition measure_all (st : State) : State :=
  {| n_qubits := n_qubits st; n_bits := n_bits st; state := state st;
     cbits := cbits st; measurement_qubits := measurement_qubits st;
     measure_all_flag := true |}.

(** A gate call as data, to speak about sequences of calls. *)
Inductive gate : Type :=
| GX (j : Z)
| GCX (j k : Z)
| GS (j : Z)
| GT (j : Z)
| GH (j : Z).

Definition apply_gate (g : gate) (st : State) : State :=
  match g with
  | GX j => x j st
  | GCX j k => cx j k st
  | GS j => s j st
  | GT j => t j st
  | GH j => h j st
  end.

Definition apply_gates (gs : list gate) (st : State) : State :=
  fold_left (fun acc g => apply_gate g acc) gs st.

End Simulator.

Arguments State C : clear implicits.
Arguments entry C : clear implicits.

(** ** Sampling

    [run] works on objects: it copies the prepared state and assigns to
    the copy.  The objects live in a heap indexed by references; the heap
    also carries the random source, as the values successive calls of
    [random.random()] return and the number of calls made so far. *)

Section Sampler.
Context {C : Type} {num : Num C}.

Record World : Type := mkWorld {
  cells : nat -> State C;      (* the State objects *)
  next : nat;                  (* first unused reference *)
  rng : nat -> C;              (* the values of random.random() *)
  draws : nat                  (* how many have been consumed *)
}.

(** A computation that may raise and may change the heap. *)
Definition M (A : Type) : Type := World -> result A * World.

Definition ret {A} (a : A) : M A := fun w => (Ok a, w).

Definition throw {A} (e : exn) : M A := fun w => (Raise e, w).

Definition bind {A B} (m : M A) (k : A -> M B) : M B :=
  fun w =>
    match m w with
    | (Ok a, w') => k a w'
    | (Raise e, w') => (Raise e, w')
    end.

Definition lift {A} (r : result A) : M A := fun w => (r, w).

Definition deref (p : nat) : M (State C) := fun w => (Ok (cells w p), w).

Definition assign (p : nat) (st : State C) : M unit :=
  fun w =>
    (Ok tt,
     {| cells := fun q => if Nat.eqb q p then st else cells w q;
        next := next w; rng := rng w; draws := draws w |}).

Definition alloc (st : State C) : M nat :=
  fun w =>
    (Ok (next w),
     {| cells := fun q => if Nat.eqb q (next w) then st else cells w q;
        next := S (next w); rng := rng w; draws := draws w |}).

(** [random.random()]. *)
Definition random : M C :=
  fun w =>
    (Ok (rng w (draws w)),
     {| cells := cells w; next := next w; rng := rng w;
        draws := S (draws w) |}).
End Sampler.

Notation "x <~ m ;; k" := (bind m (fun x => k))
  (at level 61, m at next level, right associativity).

Section Run.
Context {C : Type} {num : Num C}.

(** [self.copy()]: a new object built by [State(...)], whose fields are
    then replaced by copies of the fields of [self]. *)
Definition copy (self : nat) : M nat :=
  st <~ deref self ;;
  new <~ lift (construct (n_qubits st) (n_bits st)) ;;
  new_state <~ alloc new ;;
  _ <~ assign new_state
         {| n_qubits := n_qubits new; n_bits := n_bits new;
            state := state st;
            cbits := cbits st;
            measurement_qubits := measurement_qubits st;
            measure_all_flag := measure_all_flag st |} ;;
  ret new_state.

(** [sum(abs(a) ** 2 for b, a in current_state if not b[qubit])]. *)
Fixpoint prob_zero (qubit : Z) (l : list (entry C)) (acc : C) : result C :=
  match l with
  | [] => Ok acc
  | (b, a) :: r =>
      bq <- getitem b qubit ;;
      prob_zero qubit r (if negb bq then add acc (abs2 a) else acc)
  end.

(** The two list comprehensions of the collapse:
    [[(b, a / sqrt(p)) for b, a in l if <bit test> and p > 0]], the bit
    test being [not b[qubit]] for outcome 0 and [b[qubit]] for
    outcome 1. *)
Fixpoint collapse (qubit : Z) (outcome : bool) (p : C) (l : list (entry C))
  : result (list (entry C)) :=
  match l with
  | [] => Ok []
  | (b, a) :: r =>
      bq <- getitem b qubit ;;
      if (if outcome then bq else negb bq) && ltb zero p then
        d <- py_sqrt p ;;
        a' <- py_div a d ;;
        rest <- collapse qubit outcome p r ;;
        Ok ((b, a') :: rest)
      else collapse qubit outcome p r
  end.

Definition str_of_bit (m : bool) : string :=
  if m then "1"%string else "0"%string.

(** The body of [for qubit in qubits_to_measure]. *)
Definition measure_qubit (temp_state : nat) (result_bits : list string)
    (qubit : Z) : M (list string) :=
  ts <~ deref temp_state ;;
  current_state <~ lift (force (state ts)) ;;
  prob_0 <~ lift (prob_zero qubit current_state zero) ;;
  r <~ random ;;
  let measurement := leb prob_0 r in
  result_bits <~ lift (setitem result_bits qubit (str_of_bit measurement)) ;;
  new_state <~ lift
    (if negb measurement then collapse qubit false prob_0 current_state
     else collapse qubit true (sub one prob_0) current_state) ;;
  ts <~ deref temp_state ;;
  _ <~ assign temp_state (with_state ts (of_list new_state)) ;;
  ret result_bits.

Fixpoint measure_qubits (temp_state : nat) (result_bits : list string)
    (qubits : list Z) : M (list string) :=
  match qubits with
  | [] => ret result_bits
  | qubit :: rest =>
      result_bits <~ measure_qubit temp_state result_bits qubit ;;
      measure_qubits temp_state result_bits rest
  end.

Fixpoint getitems (l : list string) (qs : list Z) : result (list string) :=
  match qs with
  | [] => Ok []
  | q :: r => c <- getitem l q ;; cs <- getitems l r ;; Ok (c :: cs)
  end.

(** The counts dictionary, in insertion order. *)
Fixpoint counts_get (counts : list (string * Z)) (k : string) (d : Z) : Z :=
  match counts with
  | [] => d
  | (k', v) :: r => if String.eqb k' k then v else counts_get r k d
  end.

Fixpoint counts_set (counts : list (string * Z)) (k : string) (v : Z)
  : list (string * Z) :=
  match counts with
  | [] => [(k, v)]
  | (k', v') :: r =>
      if String.eqb k' k then (k', v) :: r else (k', v') :: counts_set r k v
  end.

(** The body of [for _ in range(shots)]. *)
Definition shot (state : nat) (qubits_to_measure : list Z)
    (counts : list (string * Z)) : M (list (string * Z)) :=
  temp_state <~ copy state ;;
  st <~ deref state ;;
  let result_bits := repeat "0"%string (Z.to_nat (n_qubits st)) in
  result_bits <~ measure_qubits temp_state result_bits qubits_to_measure ;;
  st <~ deref state ;;
  result <~ (if measure_all_flag st then ret (String.concat "" result_bits)
             else cs <~ lift (getitems result_bits qubits_to_measure) ;;
                  ret (String.concat "" cs)) ;;
  ret (counts_set counts result (counts_get counts result 0 + 1)%Z).

Fixpoint shots_loop (n : nat) (state : nat) (qubits_to_measure : list Z)
    (counts : list (string * Z)) : M (list (string * Z)) :=
  match n with
  | O => ret counts
  | S n' =>
      counts <~ shot state qubits_to_measure counts ;;
      shots_loop n' state qubits_to_measure counts
  end.

(** The order of [(key, count)] tuples. *)
Definition item_leb (a b : string * Z) : bool :=
  match String.compare (fst a) (fst b) with
  | Lt => true
  | Eq => (snd a <=? snd b)%Z
  | Gt => false
  end.

Definition shots_error : exn :=
  ValueError "Shots must be a positive integer".

Definition no_measurement_error : exn :=
  ValueError
    "No measurements specified. Use measure() or measure_all() first.".

(** [run(state, shots)]. *)
Definition run (state : nat) (shots : Z) : M (list (string * Z)) :=
  if (shots <=? 0)%Z then throw shots_error
  else
    st <~ deref state ;;
    if match measurement_qubits st with [] => true | _ => false end
       && negb (measure_all_flag st)
    then throw no_measurement_error
    else
      st <~ deref state ;;
      let qubits_to_measure :=
        if measure_all_flag st
        then map Z.of_nat (seq 0 (Z.to_nat (n_qubits st)))
        else sorted Z.leb (measurement_qubits st) in
      counts <~ shots_loop (Z.to_nat shots) state qubits_to_measure [] ;;
      ret (sorted item_leb counts).
End Run.

(** ** Reading a state *)

(** [b.to01()]: the bits as a string of ["0"] and ["1"]. *)
Fixpoint to01 (b : bitarray) : string :=
  match b with
  | [] => EmptyString
  | c :: r => String (if c then "1"%char else "0"%char) (to01 r)
  end.


(** [s.sorted(key=...)]: consumes the whole input when iterated; [le]
    compares the keys. *)
Definition seq_sorted {T} (le : T -> T -> bool) (s : Seq T) : Seq T :=
  match force s with
  | Ok l => of_list (sorted le l)
  | Raise e => sraise e
  end.

(** [str(i)] for an integer. *)
Definition str_of_int (i : Z) : string :=
  NilZero.string_of_int (Z.to_int i).

Section Reading.
Context {C : Type} {num : Num C}.

(** The literal [1e-10], [abs] and the format [{a:.3f}] are not among
    the operations of [Num]; the functions that use them take them as
    parameters. *)
Variable tiny : C.
Variable absolute : C -> C.
Variable format_3f : C -> string.



(** The order of two entries by [x[0].to01()]. *)
Definition key_leb (a b : entry C) : bool :=
  String.leb (to01 (fst a)) (to01 (fst b)).

Definition render_entry (e : entry C) : string :=
  ("|" ++ to01 (fst e) ++ "⟩: " ++ format_3f (snd e))%string.

(** [__str__()]: the method first assigns the sorted sequence to
    [self.state]; the result is the text, or the exception raised while
    the sorted sequence is iterated, together with the state left. *)
Definition state_str (st : State C) : result string * State C :=
  let st' := with_state st (seq_sorted key_leb (state st)) in
  (l <- force (state st') ;;
   let non_zero_states := filter (fun e => ltb tiny (absolute (snd e))) l in
   let text :=
     match non_zero_states with
     | [] => "Quantum state: |0⟩^n (all zero amplitudes)"%string
     | _ =>
         ("Quantum state:" ++ String "010"%char EmptyString
          ++ String.concat (String "010"%char EmptyString)
               (map render_entry non_zero_states))%string
     end in
   Ok (if (0 <? n_bits st')%Z
       then (text ++ String "010"%char (String "010"%char EmptyString)
             ++ "Classical register: "
             ++ String.concat "" (map str_of_int (cbits st')))%string
       else text),
   st').
End Reading.

(** ** Calls on a state *)

(** A gate call or a marking call, as data. *)
Inductive call : Type :=
| CallGate (g : gate)
| CallMeasure (j : Z) (cbit : option Z)
| CallMeasureAll.

Definition apply_call {C} {num : Num C} (c : call) (st : State C) : State C :=
  match c with
  | CallGate g => apply_gate g st
  | CallMeasure j cbit => measure j cbit st
  | CallMeasureAll => measure_all st
  end.

Definition apply_calls {C} {num : Num C} (cs : list call) (st : State C)
  : State C :=
  fold_left (fun acc c => apply_call c acc) cs st.

(** ** Laws of the arithmetic *)

(** Exact arithmetic: the numbers form a commutative ring in which [1j],
    [exp(1j * pi / 4)], [1 / sqrt(2)] and the squared magnitude have
    their mathematical properties.  Binary floating point satisfies these
    laws only up to rounding. *)
Class ExactNum (C : Type) {num : Num C} : Prop := {
  num_ring : ring_theory zero one add mul sub opp (@eq C);
  imag_square : mul imag imag = opp one;
  phase_square : mul phase phase = imag;
  inv_sqrt2_square : mul (add one one) (mul inv_sqrt2 inv_sqrt2) = one;
  abs2_zero : abs2 zero = zero;
  abs2_one : abs2 one = one;
  abs2_mul : forall a b, abs2 (mul a b) = mul (abs2 a) (abs2 b);
  abs2_imag : abs2 imag = one;
  abs2_phase : abs2 phase = one;
  abs2_inv_sqrt2 : mul (add one one) (abs2 inv_sqrt2) = one;
  abs2_parallelogram : forall a b,
    add (abs2 (add a b)) (abs2 (sub a b))
    = mul (add one one) (add (abs2 a) (abs2 b))
}.

(** What the collapse needs of the order and of the square root; these
    hold for floating point as well as for exact numbers. *)
Class OrderedNum (C : Type) {num : Num C} : Prop := {
  lt_asym : forall p, ltb zero p = true -> ltb p zero = false;
  sqrt_nonzero : forall p, ltb zero p = true -> eqb_zero (sqrt p) = false
}.

Arguments ExactNum C {num}.
Arguments OrderedNum C {num}.

(** ** The complex numbers as an exact arithmetic *)

Definition RC : Type := (R * R)%type.

Definition RC_mul (a b : RC) : RC :=
  (fst a * fst b - snd a * snd b, fst a * snd b + snd a * fst b)%R.

#[export] Instance RC_num : Num RC := {|
  zero := (0, 0)%R;
  one := (1, 0)%R;
  add := fun a b => (fst a + fst b, snd a + snd b)%R;
  mul := RC_mul;
  sub := fun a b => (fst a - fst b, snd a - snd b)%R;
  opp := fun a => (- fst a, - snd a)%R;
  imag := (0, 1)%R;
  phase := (/ R_sqrt.sqrt 2, / R_sqrt.sqrt 2)%R;
  inv_sqrt2 := (/ R_sqrt.sqrt 2, 0)%R;
  abs2 := fun a => (fst a * fst a + snd a * snd a, 0)%R;
  sqrt := fun a => (R_sqrt.sqrt (fst a), 0%R);
  div := fun a d => (fst a / fst d, snd a / fst d)%R;
  eqb_zero := fun d =>
    if Req_dec_T (fst d) 0 then
      if Req_dec_T (snd d) 0 then true else false
    else false;
  ltb := fun a b => if Rlt_dec (fst a) (fst b) then true else false;
  leb := fun a b => if Rle_dec (fst a) (fst b) then true else false
|}.

(** ** Notions used by the properties *)

Section Notions.
Context {C : Type} {num : Num C}.

Definition keys (l : list (entry C)) : list bitarray := map fst l.

(** Every key has [n] bits. *)
Definition keys_sized (n : nat) (l : list (entry C)) : Prop :=
  forall b, In b (keys l) -> length b = n.

(** Every basis state of [n] bits is the key of exactly one entry. *)
Definition dense (n : nat) (l : list (entry C)) : Prop :=
  NoDup (keys l) /\ forall b, In b (keys l) <-> length b = n.


(** The amplitude map of the state evaluates to a dense list. *)
Definition dense_state (st : State C) : Prop :=
  (0 < n_qubits st)%Z /\
  exists l, state st = of_list l /\ dense (Z.to_nat (n_qubits st)) l.

(** The gate calls the interface describes: indices within
    [0, n_qubits), control and target of [cx] distinct. *)
Definition valid_gate (n : Z) (g : gate) : Prop :=
  match g with
  | GX j | GS j | GT j | GH j => (0 <= j < n)%Z
  | GCX j k => (0 <= j < n)%Z /\ (0 <= k < n)%Z /\ j <> k
  end.


(** The indices for which the functions of a gate raise nothing on a
    basis state of [n] bits: [flip] takes an index within [0, n), item
    access and assignment also take [-n .. -1]. *)
Definition accepted_gate (n : Z) (g : gate) : Prop :=
  match g with
  | GX j => (0 <= j < n)%Z
  | GS j | GT j | GH j => (- n <= j < n)%Z
  | GCX j k => (- n <= j < n)%Z /\ (0 <= k < n)%Z
  end.

(** The amplitude a list of entries gives to a basis state: the sum of
    the amplitudes filed under that key. *)
Fixpoint amp_at (l : list (entry C)) (k : bitarray) : C :=
  match l with
  | [] => zero
  | (b, a) :: r =>
      if bitarray_eq_dec b k then add a (amp_at r k) else amp_at r k
  end.

(** Bit [i] of a basis state, and the basis state with bit [i] negated. *)
Definition bit (i : nat) (b : bitarray) : bool := nth i b false.

Definition negate (i : nat) (b : bitarray) : bitarray :=
  update b i (negb (bit i b)).

(** The position an index denotes in a sequence of [n] items. *)
Definition index_of (n : nat) (j : Z) : nat :=
  match py_index n j with
  | Some i => i
  | None => O
  end.

(** What the function of each gate returns for an entry, [i] and [k]
    being the positions its indices denote. *)
Definition x_entry (i : nat) (e : entry C) : entry C :=
  (negate i (fst e), snd e).

Definition cx_entry (i k : nat) (e : entry C) : entry C :=
  (if bit i (fst e) then negate k (fst e) else fst e, snd e).

Definition s_entry (i : nat) (e : entry C) : entry C :=
  (fst e, mul (pow_bit imag (bit i (fst e))) (snd e)).

Definition t_entry (i : nat) (e : entry C) : entry C :=
  (fst e, mul (pow_bit phase (bit i (fst e))) (snd e)).

Definition h_entries (i : nat) (e : entry C) : list (entry C) :=
  [(update (fst e) i false, mul (snd e) inv_sqrt2);
   (update (fst e) i true,
    mul (mul (snd e) inv_sqrt2) (pow_bit (opp one) (bit i (fst e))))].

(** The entries a gate produces from the entries [l] of a register of
    [n] qubits. *)
Definition gate_entries (n : nat) (g : gate) (l : list (entry C))
  : list (entry C) :=
  match g with
  | GX j => map (x_entry (index_of n j)) l
  | GCX j k => map (cx_entry (index_of n j) (index_of n k)) l
  | GS j => map (s_entry (index_of n j)) l
  | GT j => map (t_entry (index_of n j)) l
  | GH j =>
      reduce_by_key_impl add (concat (map (h_entries (index_of n j)) l))
  end.

(** Control and target of a [cx] denote different positions. *)
Definition distinct_cx (n : nat) (g : gate) : Prop :=
  match g with
  | GCX j k => index_of n j <> index_of n k
  | _ => True
  end.

(** The amplitudes after the expansion step of [h], in terms of the
    amplitudes before: the two basis states that differ from [k] at most
    in bit [i] contribute, with a sign for the bit of [k]. *)
Definition hadamard_amp (i : nat) (A : bitarray -> C) (k : bitarray) : C :=
  if bit i k
  then mul (sub (A (update k i false)) (A (update k i true))) inv_sqrt2
  else mul (add (A (update k i false)) (A (update k i true))) inv_sqrt2.


End Notions.

(** ** Notions about [run] *)

Section RunNotions.
Context {C : Type} {num : Num C}.

(** The objects that existed in [w0] are the same in [w]. *)
Definition keeps (w0 w : World (C := C)) : Prop :=
  next w0 <= next w /\ forall p, p < next w0 -> cells w p = cells w0 p.

(** [m] changes no object of [w0], whether it returns or raises, and
    what it returns satisfies [V]. *)
Definition preserves {A} (w0 : World (C := C)) (V : A -> Prop) (m : M A)
  : Prop :=
  forall w, keeps w0 w ->
    keeps w0 (snd (m w)) /\ forall a, fst (m w) = Ok a -> V a.

End RunNotions.

(** ** Notions about the result of [run] *)


(** The qubits [run] measures, in the order it measures them. *)
Definition scheduled_qubits {C} (st : State C) : list Z :=
  if measure_all_flag st
  then map Z.of_nat (seq 0 (Z.to_nat (n_qubits st)))
  else sorted Z.leb (measurement_qubits st).



(** Entries without amplitude: keys of [n] bits, amplitude 0. *)
Definition zero_entries (n : nat) (l : list (entry RC)) : Prop :=
  forall e, In e l -> length (fst e) = n /\ snd e = (0, 0)%R.

(** The map of the basis state [b]: one entry for [b] with amplitude 1,
    every other entry with amplitude 0. *)
Definition basis_entries (n : nat) (b : bitarray) (l : list (entry RC))
  : Prop :=
  length b = n /\
  exists l1 l2,
    l = l1 ++ (b, (1, 0)%R) :: l2 /\ zero_entries n l1 /\ zero_entries n l2.

(** The result bits after the qubits [qs] of the basis state [b] have
    been measured, starting from [bs]. *)
Definition written (n : nat) (b : bitarray) (qs : list Z) (bs : list bool)
  : list bool :=
  fold_left
    (fun acc q => update acc (index_of n q) (bit (index_of n q) b)) qs bs.

(** The outcome [run] reports for the basis state [b]. *)
Definition reported {C} (st : State C) (b : bitarray) : bitarray :=
  if measure_all_flag st then b
  else map (fun q => bit (index_of (Z.to_nat (n_qubits st)) q) b)
         (sorted Z.leb (measurement_qubits st)).

(** * Properties *)

Unset Implicit Arguments.

(** ** Indexing and bit operations *)

Lemma py_index_nonneg (len : nat) (j : Z) :
  (0 <= j < Z.of_nat len)%Z -> py_index len j = Some (Z.to_nat j).
Proof.
  intros Hj. unfold py_index.
  destruct (Z.leb_spec 0 j); [|lia].
  destruct (Z.ltb_spec j (Z.of_nat len)); [|lia]. reflexivity.
Qed.

Lemma py_index_neg (len : nat) (j : Z) :
  (- Z.of_nat len <= j < 0)%Z ->
  py_index len j = Some (Z.to_nat (Z.of_nat len + j)).
Proof.
  intros Hj. unfold py_index.
  destruct (Z.leb_spec 0 j); [lia|]. cbn [andb].
  destruct (Z.ltb_spec j 0); [|lia].
  destruct (Z.leb_spec (- Z.of_nat len) j); [|lia]. reflexivity.
Qed.

Lemma py_index_none (len : nat) (j : Z) :
  (j < - Z.of_nat len \/ Z.of_nat len <= j)%Z -> py_index len j = None.
Proof.
  intros Hj. unfold py_index.
  destruct (Z.leb_spec 0 j), (Z.ltb_spec j (Z.of_nat len)),
    (Z.ltb_spec j 0), (Z.leb_spec (- Z.of_nat len) j);
    cbn [andb]; try reflexivity; lia.
Qed.

Lemma py_index_some (len : nat) (j : Z) (i : nat) :
  py_index len j = Some i -> i < len /\ (- Z.of_nat len <= j < Z.of_nat len)%Z.
Proof.
  unfold py_index.
  destruct (Z.leb_spec 0 j), (Z.ltb_spec j (Z.of_nat len)),
    (Z.ltb_spec j 0), (Z.leb_spec (- Z.of_nat len) j);
    cbn [andb]; intros E; inversion E; subst; lia.
Qed.

Lemma py_index_accepts (len : nat) (j : Z) :
  (- Z.of_nat len <= j < Z.of_nat len)%Z ->
  exists i, py_index len j = Some i /\ i < len.
Proof.
  intros Hj. destruct (Z.ltb_spec j 0).
  - eexists. split; [apply py_index_neg; lia | lia].
  - eexists. split; [apply py_index_nonneg; lia | lia].
Qed.

Lemma length_update {A} (l : list A) (k : nat) (v : A) :
  length (update l k v) = length l.
Proof.
  revert k; induction l as [|a l IH]; intros [|k]; cbn; auto.
Qed.

Lemma nth_update_same {A} (l : list A) (k : nat) (v d : A) :
  k < length l -> nth k (update l k v) d = v.
Proof.
  revert k; induction l as [|a l IH]; intros [|k]; cbn; intros Hk;
    try lia; auto. apply IH. lia.
Qed.

Lemma nth_update_other {A} (l : list A) (k k' : nat) (v d : A) :
  k <> k' -> nth k' (update l k v) d = nth k' l d.
Proof.
  revert k k'; induction l as [|a l IH]; intros [|k] [|k'] Hne; cbn;
    try reflexivity; try congruence. apply IH. congruence.
Qed.

Lemma update_update {A} (l : list A) (k : nat) (u v : A) :
  update (update l k u) k v = update l k v.
Proof.
  revert k; induction l as [|a l IH]; intros [|k]; cbn; auto.
  now rewrite IH.
Qed.

Lemma update_nth {A} (l : list A) (k : nat) (d : A) :
  update l k (nth k l d) = l.
Proof.
  revert k; induction l as [|a l IH]; intros [|k]; cbn; auto.
  now rewrite IH.
Qed.

Lemma update_comm {A} (l : list A) (k k' : nat) (u v : A) :
  k <> k' -> update (update l k u) k' v = update (update l k' v) k u.
Proof.
  revert k k'; induction l as [|a l IH]; intros [|k] [|k'] Hne; cbn;
    try reflexivity; try congruence. rewrite IH; congruence.
Qed.

Lemma getitem_some {A} (b : list A) (j : Z) (i : nat) (d : A) :
  py_index (length b) j = Some i -> getitem b j = Ok (nth i b d).
Proof.
  intros E. unfold getitem. rewrite E.
  apply py_index_some in E. destruct E as [Hi _].
  destruct (nth_error b i) eqn:En.
  - now rewrite (nth_error_nth _ _ d En).
  - apply nth_error_None in En. lia.
Qed.

Lemma getitem_none {A} (b : list A) (j : Z) :
  py_index (length b) j = None ->
  getitem b j = Raise (IndexError "index out of range").
Proof. intros E. unfold getitem. now rewrite E. Qed.

Lemma xor_bits_zeros (b : bitarray) :
  xor_bits b (repeat false (length b)) = b.
Proof.
  induction b as [|a b IH]; cbn; [reflexivity|].
  rewrite IH. now destruct a.
Qed.

Lemma xor_bits_mask (b : bitarray) (i : nat) :
  i < length b ->
  xor_bits b (repeat false i ++ [true] ++ repeat false (length b - i - 1))
  = negate i b.
Proof.
  unfold negate, bit. revert i; induction b as [|a b IH]; intros [|i] Hi;
    cbn in *; try lia.
  - rewrite Nat.sub_0_r, xor_bits_zeros. now destruct a.
  - rewrite xorb_false_r. f_equal. apply IH. lia.
Qed.

Lemma flip_ok (b : bitarray) (j : Z) :
  (0 <= j < Z.of_nat (length b))%Z ->
  flip b j = Ok (negate (Z.to_nat j) b).
Proof.
  intros Hj. unfold flip, flip_mask.
  replace (Z.to_nat (Z.of_nat (length b) - j - 1))
    with (length b - Z.to_nat j - 1) by lia.
  rewrite !length_app, !repeat_length. cbn [length].
  replace (Z.to_nat j + (1 + (length b - Z.to_nat j - 1))) with (length b)
    by lia.
  rewrite Nat.eqb_refl. f_equal. apply xor_bits_mask. lia.
Qed.

Lemma flip_rejects (b : bitarray) (j : Z) :
  ~ (0 <= j < Z.of_nat (length b))%Z ->
  flip b j = Raise (ValueError "bitarrays of equal length expected").
Proof.
  intros Hj. unfold flip, flip_mask.
  rewrite !length_app, !repeat_length. cbn [length].
  destruct (Nat.eqb_spec (length b)
    (Z.to_nat j + (1 + Z.to_nat (Z.of_nat (length b) - j - 1))));
    [lia | reflexivity].
Qed.

Lemma length_negate (i : nat) (b : bitarray) :
  length (negate i b) = length b.
Proof. apply length_update. Qed.

Lemma negate_negate (i : nat) (b : bitarray) :
  i < length b -> negate i (negate i b) = b.
Proof.
  intros Hi. unfold negate, bit.
  rewrite nth_update_same, update_update, negb_involutive by assumption.
  apply update_nth.
Qed.

Lemma bit_negate_same (i : nat) (b : bitarray) :
  i < length b -> bit i (negate i b) = negb (bit i b).
Proof. intros Hi. unfold negate, bit. now apply nth_update_same. Qed.

Lemma bit_negate_other (i i' : nat) (b : bitarray) :
  i <> i' -> bit i' (negate i b) = bit i' b.
Proof. intros Hi. unfold negate, bit. now apply nth_update_other. Qed.

(** ** Lazy sequences *)

Lemma force_of_list {T} (l : list T) : force (of_list l) = Ok l.
Proof. induction l as [|a l IH]; cbn; [reflexivity|]. now rewrite IH. Qed.

Lemma force_ok_of_list {T} (q : Seq T) (l : list T) :
  force q = Ok l -> q = of_list l.
Proof.
  revert l; induction q as [|a q IH|e]; cbn; intros l E.
  - now inversion E.
  - destruct (force q) as [l'|e]; cbn in E; inversion E; subst.
    cbn. f_equal. now apply IH.
  - discriminate.
Qed.

Lemma of_list_inj {T} (l l' : list T) : of_list l = of_list l' -> l = l'.
Proof.
  intros E. apply (f_equal force) in E. rewrite !force_of_list in E.
  now inversion E.
Qed.

Lemma smap_of_list {T U} (f : T -> result U) (g : T -> U) (l : list T) :
  (forall e, In e l -> f e = Ok (g e)) ->
  smap f (of_list l) = of_list (map g l).
Proof.
  induction l as [|a l IH]; cbn; intros Hf; [reflexivity|].
  rewrite (Hf a) by auto. f_equal. apply IH. auto.
Qed.

Lemma smap_raises {T U} (f : T -> result U) (l : list T) :
  l <> [] -> (forall e, In e l -> is_raise (f e)) ->
  is_raise (force (smap f (of_list l))).
Proof.
  destruct l as [|a l]; [congruence|]. intros _ Hf.
  destruct (Hf a) as [e He]; [now left|]. cbn. rewrite He. now exists e.
Qed.

Lemma smap_raises_at {T U} (f : T -> result U) (l : list T) (a : T) :
  In a l -> is_raise (f a) -> is_raise (force (smap f (of_list l))).
Proof.
  induction l as [|c l IH]; cbn; [tauto|]. intros [->|Hin] Ha.
  - destruct Ha as [e He]. rewrite He. now exists e.
  - destruct (f c) as [y|e]; cbn; [|now exists e].
    destruct (IH Hin Ha) as [e He]. rewrite He. now exists e.
Qed.

Lemma sapp_of_list {T} (l l' : list T) :
  sapp l (of_list l') = of_list (l ++ l').
Proof. induction l as [|a l IH]; cbn; [reflexivity|]. now rewrite IH. Qed.

Lemma flatten_of_list {T} (ls : list (list T)) :
  flatten (of_list ls) = of_list (concat ls).
Proof.
  induction ls as [|l ls IH]; cbn; [reflexivity|].
  now rewrite IH, sapp_of_list.
Qed.

Lemma reduce_by_key_of_list {V} (f : V -> V -> V) (l : list (bitarray * V)) :
  reduce_by_key f (of_list l) = of_list (reduce_by_key_impl f l).
Proof. unfold reduce_by_key. now rewrite force_of_list. Qed.

Lemma force_flatten_raise {T} (q : Seq (list T)) :
  is_raise (force q) -> is_raise (force (flatten q)).
Proof.
  induction q as [|l q IH|e]; cbn; intros [e' He].
  - discriminate.
  - destruct (force q) as [l'|e0] eqn:E; cbn in He; [discriminate|].
    destruct IH as [e1 He1]; [now exists e0|].
    clear He. induction l as [|c l IHl]; cbn.
    + now exists e1.
    + destruct IHl as [e2 He2]. rewrite He2. now exists e2.
  - now exists e.
Qed.

Lemma force_reduce_by_key_raise {V} (f : V -> V -> V) q :
  is_raise (force q) -> is_raise (force (reduce_by_key f q)).
Proof. intros [e He]. unfold reduce_by_key. rewrite He. now exists e. Qed.

(** ** The initial amplitude map *)

Section Structure.
Context {C : Type} {num : Num C}.

Lemma length_bin_digits (w i : nat) : length (bin_digits w i) = w.
Proof.
  revert i; induction w as [|w IH]; intros i; cbn; [reflexivity|].
  rewrite length_app, IH. cbn. lia.
Qed.

Lemma bin_digits_zero (w : nat) : bin_digits w 0 = repeat false w.
Proof.
  induction w as [|w IH]; cbn; [reflexivity|].
  rewrite IH. symmetry. apply repeat_cons.
Qed.

Lemma bin_digits_inj (w i i' : nat) :
  i < 2 ^ w -> i' < 2 ^ w -> bin_digits w i = bin_digits w i' -> i = i'.
Proof.
  revert i i'; induction w as [|w IH]; cbn [bin_digits Nat.pow]; intros i i' Hi Hi' E.
  - cbn in *. lia.
  - apply app_inj_tail in E. destruct E as [E Eo].
    pose proof (Nat.div2_odd i) as Di. pose proof (Nat.div2_odd i') as Di'.
    assert (Nat.div2 i = Nat.div2 i') as Ed.
    { apply IH; [| |exact E]; lia. }
    inversion Eo as [Eo']. rewrite Eo', Ed in Di. lia.
Qed.

Lemma bin_digits_surj (w : nat) (b : bitarray) :
  length b = w -> exists i, i < 2 ^ w /\ bin_digits w i = b.
Proof.
  revert b; induction w as [|w IH]; intros b Hb.
  - destruct b; [|discriminate]. exists 0. cbn. split; [lia|reflexivity].
  - destruct (exists_last (l := b)) as [b' [c ->]].
    { intros ->. discriminate. }
    rewrite length_app in Hb. cbn in Hb.
    destruct (IH b') as [i [Hi E]]; [lia|].
    exists (2 * i + Nat.b2n c). split.
    + cbn [Nat.pow]. destruct c; cbn [Nat.b2n]; lia.
    + cbn [bin_digits]. f_equal.
      * rewrite <- E. f_equal.
        destruct c; cbn [Nat.b2n].
        -- replace (2 * i + 1) with (S (2 * i)) by lia.
           apply Nat.div2_succ_double.
        -- rewrite Nat.add_0_r. apply Nat.div2_double.
      * f_equal. rewrite Nat.add_comm, Nat.odd_add_mul_2.
        now destruct c.
Qed.

Lemma keys_initial_entries (n : nat) :
  keys (initial_entries (C := C) n) = map (bin_digits n) (seq 0 (2 ^ n)).
Proof. unfold keys, initial_entries. rewrite map_map. reflexivity. Qed.

Lemma dense_initial_entries (n : nat) : dense n (initial_entries (C := C) n).
Proof.
  split.
  - rewrite keys_initial_entries.
    assert (forall l, NoDup l -> (forall i, In i l -> i < 2 ^ n) ->
                      NoDup (map (bin_digits n) l)) as G.
    { induction 1 as [|a l Ha Hl IH]; cbn; intros Hlt; constructor.
      - rewrite in_map_iff. intros [i [E Hi]].
        apply bin_digits_inj in E; auto. subst. contradiction.
      - apply IH. auto. }
    apply G; [apply seq_NoDup|]. intros i Hi. apply in_seq in Hi. lia.
  - intros b. rewrite keys_initial_entries, in_map_iff. split.
    + intros [i [<- _]]. apply length_bin_digits.
    + intros Hb. destruct (bin_digits_surj n b Hb) as [i [Hi E]].
      exists i. split; [exact E|]. apply in_seq. lia.
Qed.

Lemma length_initial_entries (n : nat) :
  length (initial_entries (C := C) n) = 2 ^ n.
Proof. unfold initial_entries. now rewrite length_map, length_seq. Qed.

(** A dense list has as many entries as there are basis states. *)
Lemma dense_length (n : nat) (l : list (entry C)) :
  dense n l -> length l = 2 ^ n.
Proof.
  intros [Hnd Hin].
  destruct (dense_initial_entries n) as [Hnd0 Hin0].
  assert (length (keys l) = length (keys (initial_entries (C := C) n))) as E.
  { apply Permutation_length, NoDup_Permutation; auto.
    intros b. now rewrite Hin, Hin0. }
  unfold keys in E. rewrite !length_map in E.
  etransitivity; [exact E | apply length_initial_entries].
Qed.

Lemma dense_keys_sized (n : nat) (l : list (entry C)) :
  dense n l -> keys_sized n l.
Proof. intros [_ Hin] b Hb. now apply Hin. Qed.
End Structure.

(** ** What a gate call does to the entries *)

Section Gates.
Context {C : Type} {num : Num C}.

Lemma index_of_in_range (n : nat) (j : Z) :
  (0 <= j < Z.of_nat n)%Z -> index_of n j = Z.to_nat j.
Proof. intros Hj. unfold index_of. now rewrite py_index_nonneg. Qed.

Lemma index_of_accepts (n : nat) (j : Z) :
  (- Z.of_nat n <= j < Z.of_nat n)%Z ->
  py_index n j = Some (index_of n j) /\ index_of n j < n.
Proof.
  intros Hj. destruct (py_index_accepts n j Hj) as [i [E Hi]].
  unfold index_of. rewrite E. auto.
Qed.

Lemma getitem_accepts (n : nat) (b : bitarray) (j : Z) :
  length b = n -> (- Z.of_nat n <= j < Z.of_nat n)%Z ->
  getitem b j = Ok (bit (index_of n j) b).
Proof.
  intros Hb Hj. destruct (index_of_accepts n j Hj) as [E _].
  apply getitem_some. now rewrite Hb.
Qed.

Lemma set_bit_accepts (n : nat) (b : bitarray) (j : Z) (v : bool) :
  length b = n -> (- Z.of_nat n <= j < Z.of_nat n)%Z ->
  set_bit b j v = Ok (update b (index_of n j) v).
Proof.
  intros Hb Hj. destruct (index_of_accepts n j Hj) as [E _].
  unfold set_bit, setitem. now rewrite Hb, E.
Qed.

Lemma flip_accepts (n : nat) (b : bitarray) (j : Z) :
  length b = n -> (0 <= j < Z.of_nat n)%Z ->
  flip b j = Ok (negate (index_of n j) b).
Proof.
  intros Hb Hj. rewrite index_of_in_range by assumption.
  apply flip_ok. now rewrite Hb.
Qed.

Lemma x_fn_accepts (n : nat) (j : Z) (e : entry C) :
  length (fst e) = n -> (0 <= j < Z.of_nat n)%Z ->
  x_fn j e = Ok (x_entry (index_of n j) e).
Proof.
  destruct e as [b a]. cbn [fst]. intros Hb Hj. unfold x_fn.
  now rewrite (flip_accepts n b j Hb Hj).
Qed.

Lemma cx_fn_accepts (n : nat) (j k : Z) (e : entry C) :
  length (fst e) = n ->
  (- Z.of_nat n <= j < Z.of_nat n)%Z -> (0 <= k < Z.of_nat n)%Z ->
  cx_fn j k e = Ok (cx_entry (index_of n j) (index_of n k) e).
Proof.
  destruct e as [b a]. cbn [fst]. intros Hb Hj Hk. unfold cx_fn, cx_entry.
  rewrite (getitem_accepts n b j Hb Hj). cbn [rbind fst snd].
  destruct (bit (index_of n j) b); cbn [negb].
  - now rewrite (flip_accepts n b k Hb Hk).
  - reflexivity.
Qed.

Lemma s_fn_accepts (n : nat) (j : Z) (e : entry C) :
  length (fst e) = n -> (- Z.of_nat n <= j < Z.of_nat n)%Z ->
  s_fn j e = Ok (s_entry (index_of n j) e).
Proof.
  destruct e as [b a]. cbn [fst]. intros Hb Hj. unfold s_fn.
  now rewrite (getitem_accepts n b j Hb Hj).
Qed.

Lemma t_fn_accepts (n : nat) (j : Z) (e : entry C) :
  length (fst e) = n -> (- Z.of_nat n <= j < Z.of_nat n)%Z ->
  t_fn j e = Ok (t_entry (index_of n j) e).
Proof.
  destruct e as [b a]. cbn [fst]. intros Hb Hj. unfold t_fn.
  now rewrite (getitem_accepts n b j Hb Hj).
Qed.

Lemma h_fn_accepts (n : nat) (j : Z) (e : entry C) :
  length (fst e) = n -> (- Z.of_nat n <= j < Z.of_nat n)%Z ->
  h_fn j e = Ok (h_entries (index_of n j) e).
Proof.
  destruct e as [b a]. cbn [fst]. intros Hb Hj. unfold h_fn.
  rewrite !(set_bit_accepts n b j _ Hb Hj), (getitem_accepts n b j Hb Hj).
  reflexivity.
Qed.

(** With accepted indices, the new sequence is the list of the
    transformed entries. *)
Lemma apply_gate_entries (st : State C) (g : gate) (l : list (entry C)) :
  let n := Z.to_nat (n_qubits st) in
  state st = of_list l -> keys_sized n l -> accepted_gate (n_qubits st) g ->
  state (apply_gate g st) = of_list (gate_entries n g l).
Proof.
  intros n El Hl Hg.
  assert (forall e, In e l -> length (fst e) = n) as Hlen.
  { intros e He. apply Hl. unfold keys. now apply in_map. }
  destruct g as [j|j k|j|j|j]; cbn [apply_gate gate_entries accepted_gate] in *;
    unfold x, cx, s, t, h; cbn [state with_state]; rewrite El.
  - apply smap_of_list. intros e He. apply x_fn_accepts; auto. lia.
  - apply smap_of_list. intros e He. apply cx_fn_accepts; auto; lia.
  - apply smap_of_list. intros e He. apply s_fn_accepts; auto. lia.
  - apply smap_of_list. intros e He. apply t_fn_accepts; auto. lia.
  - rewrite (smap_of_list (h_fn j) (h_entries (index_of n j))).
    + now rewrite flatten_of_list, reduce_by_key_of_list.
    + intros e He. apply h_fn_accepts; auto. lia.
Qed.
End Gates.

(** ** Gates keep the amplitude map dense *)

Lemma NoDup_map_on {A B} (f : A -> B) (l : list A) :
  (forall a a', In a l -> In a' l -> f a = f a' -> a = a') ->
  NoDup l -> NoDup (map f l).
Proof.
  intros Hinj Hnd. induction Hnd as [|a l Ha Hl IH]; cbn; constructor.
  - rewrite in_map_iff. intros [a' [E Ha']].
    apply Hinj in E; cbn; auto. subst. contradiction.
  - apply IH. intros; apply Hinj; cbn; auto.
Qed.

Section Density.
Context {C : Type} {num : Num C}.

(** An involution of the basis states permutes the keys. *)
Lemma dense_keys_involution (n : nat) (phi : bitarray -> bitarray)
    (ks : list bitarray) :
  (forall b, length b = n -> length (phi b) = n /\ phi (phi b) = b) ->
  NoDup ks -> (forall b, In b ks <-> length b = n) ->
  NoDup (map phi ks) /\ (forall b, In b (map phi ks) <-> length b = n).
Proof.
  intros Hphi Hnd Hin. split.
  - apply NoDup_map_on; [|assumption].
    intros a a' Ha Ha' E. apply Hin in Ha, Ha'.
    destruct (Hphi a Ha) as [_ <-]. destruct (Hphi a' Ha') as [_ <-].
    now rewrite E.
  - intros b. rewrite in_map_iff. split.
    + intros [b0 [<- Hb0]]. apply Hin in Hb0. now apply Hphi.
    + intros Hb. exists (phi b). destruct (Hphi b Hb) as [Hl E].
      split; [exact E|]. now apply Hin.
Qed.

Lemma keys_rbk_insert_in (f : C -> C -> C) (acc : list (entry C))
    (k : bitarray) (v : C) :
  In k (keys acc) -> keys (rbk_insert f acc k v) = keys acc.
Proof.
  induction acc as [|[k' v'] acc IH]; cbn [rbk_insert]; [intros []|].
  intros Hin. destruct (bitarray_eq_dec k' k) as [->|Hne]; [reflexivity|].
  unfold keys in *. cbn [map fst] in *. f_equal. apply IH.
  destruct Hin; [contradiction|assumption].
Qed.

Lemma keys_rbk_insert_new (f : C -> C -> C) (acc : list (entry C))
    (k : bitarray) (v : C) :
  ~ In k (keys acc) -> keys (rbk_insert f acc k v) = keys acc ++ [k].
Proof.
  induction acc as [|[k' v'] acc IH]; cbn [rbk_insert]; [reflexivity|].
  intros Hin. unfold keys in *. cbn [map fst] in *.
  destruct (bitarray_eq_dec k' k) as [->|Hne].
  - exfalso. apply Hin. now left.
  - cbn [map fst app]. f_equal. apply IH. intros H. apply Hin. now right.
Qed.

Lemma keys_rbk_fold (f : C -> C -> C) (l acc : list (entry C)) :
  let r := fold_left (fun acc kv => rbk_insert f acc (fst kv) (snd kv)) l acc in
  (NoDup (keys acc) -> NoDup (keys r)) /\
  (forall b, In b (keys r) <-> In b (keys acc) \/ In b (keys l)).
Proof.
  revert acc; induction l as [|[k v] l IH]; intros acc; cbn [fold_left fst snd].
  - split; [auto|]. intros b. cbn. tauto.
  - specialize (IH (rbk_insert f acc k v)). cbn zeta in IH.
    destruct IH as [IHn IHi].
    destruct (in_dec bitarray_eq_dec k (keys acc)) as [Hi|Hn].
    + rewrite keys_rbk_insert_in in IHn, IHi by assumption.
      split; [exact IHn|]. intros b. rewrite IHi. cbn.
      split; [tauto|]. intros [H|[<-|H]]; auto.
    + rewrite keys_rbk_insert_new in IHn, IHi by assumption. split.
      * intros Hnd. apply IHn. apply NoDup_app; auto.
        -- constructor; [intros []|constructor].
        -- intros a Ha [<-|[]]. contradiction.
      * intros b. rewrite IHi, in_app_iff. cbn. tauto.
Qed.

Lemma keys_reduce_by_key (f : C -> C -> C) (l : list (entry C)) :
  NoDup (keys (reduce_by_key_impl f l)) /\
  (forall b, In b (keys (reduce_by_key_impl f l)) <-> In b (keys l)).
Proof.
  destruct (keys_rbk_fold f l []) as [Hn Hi]. split.
  - apply Hn. constructor.
  - intros b. unfold reduce_by_key_impl. rewrite Hi. cbn. tauto.
Qed.

Lemma keys_h_entries (i : nat) (l : list (entry C)) (k : bitarray) :
  In k (keys (concat (map (h_entries i) l))) <->
  exists b, In b (keys l) /\ (k = update b i false \/ k = update b i true).
Proof.
  induction l as [|[b a] l IH]; cbn.
  - split; [tauto | intros [b [[] _]]].
  - rewrite IH. split.
    + intros [<-|[<-|[b' [Hb' Hk]]]].
      * exists b. auto.
      * exists b. auto.
      * exists b'. auto.
    + intros [b' [[<-|Hb'] [Hk|Hk]]]; subst; auto.
      * right; right. exists b'. auto.
      * right; right. exists b'. auto.
Qed.

Lemma gate_entries_dense (n : nat) (g : gate) (l : list (entry C)) :
  dense n l -> accepted_gate (Z.of_nat n) g -> distinct_cx n g ->
  dense n (gate_entries n g l).
Proof.
  intros [Hnd Hin] Hg Hd.
  destruct g as [j|j k|j|j|j]; cbn [gate_entries accepted_gate distinct_cx] in *.
  - destruct (index_of_accepts n j) as [_ Hi]; [lia|].
    unfold dense, keys. rewrite map_map. cbn [x_entry fst].
    rewrite <- (map_map fst (negate (index_of n j))).
    apply dense_keys_involution; auto.
    intros b Hb. split; [now rewrite length_negate|].
    apply negate_negate. lia.
  - destruct Hg as [Hj Hk].
    destruct (index_of_accepts n j) as [_ Hi]; [lia|].
    destruct (index_of_accepts n k) as [_ Hi']; [lia|].
    unfold dense, keys. rewrite map_map. cbn [cx_entry fst].
    rewrite <- (map_map fst
      (fun b => if bit (index_of n j) b then negate (index_of n k) b else b)).
    apply dense_keys_involution; auto.
    intros b Hb. destruct (bit (index_of n j) b) eqn:Eb.
    + split; [now rewrite length_negate|].
      rewrite bit_negate_other, Eb by auto.
      apply negate_negate. lia.
    + split; [assumption|]. now rewrite Eb.
  - unfold dense, keys. rewrite map_map. cbn [s_entry fst]. now split.
  - unfold dense, keys. rewrite map_map. cbn [t_entry fst]. now split.
  - destruct (index_of_accepts n j) as [_ Hi]; [lia|].
    destruct (keys_reduce_by_key add
      (concat (map (h_entries (index_of n j)) l))) as [Hn Hk].
    split; [exact Hn|]. intros b. rewrite Hk, keys_h_entries. split.
    + intros [b0 [Hb0 [->| ->]]]; rewrite length_update; now apply Hin.
    + intros Hb. exists b. split; [now apply Hin|].
      rewrite <- (update_nth b (index_of n j) false) at 1 3.
      destruct (nth (index_of n j) b false); auto.
Qed.

Lemma valid_gate_accepted (n : Z) (g : gate) :
  valid_gate n g -> accepted_gate n g.
Proof. destruct g; cbn; lia. Qed.

Lemma valid_gate_distinct (n : nat) (g : gate) :
  valid_gate (Z.of_nat n) g -> distinct_cx n g.
Proof.
  destruct g as [j|j k|j|j|j]; cbn; auto. intros [Hj [Hk Hne]].
  rewrite !index_of_in_range by lia. lia.
Qed.

(** A gate call with accepted indices takes a dense state to a dense
    state. *)
Lemma apply_gate_dense (st : State C) (g : gate) :
  dense_state st -> accepted_gate (n_qubits st) g ->
  distinct_cx (Z.to_nat (n_qubits st)) g ->
  dense_state (apply_gate g st) /\
  n_qubits (apply_gate g st) = n_qubits st.
Proof.
  intros [Hn [l [El Hl]]] Hg Hd.
  assert (n_qubits (apply_gate g st) = n_qubits st) as En.
  { destruct g; reflexivity. }
  split; [|exact En]. split; [lia|]. rewrite En.
  exists (gate_entries (Z.to_nat (n_qubits st)) g l). split.
  - apply apply_gate_entries; auto. now apply dense_keys_sized.
  - apply gate_entries_dense; auto. now rewrite Z2Nat.id by lia.
Qed.

Lemma apply_gates_cons (g : gate) (gs : list gate) (st : State C) :
  apply_gates (g :: gs) st = apply_gates gs (apply_gate g st).
Proof. reflexivity. Qed.

Lemma apply_gates_dense (gs : list gate) (st : State C) :
  dense_state st -> Forall (valid_gate (n_qubits st)) gs ->
  dense_state (apply_gates gs st) /\
  n_qubits (apply_gates gs st) = n_qubits st.
Proof.
  revert st; induction gs as [|g gs IH]; intros st Hst Hgs.
  - cbn. auto.
  - rewrite apply_gates_cons.
    inversion Hgs as [|g' gs' Hg Hgs']; subst.
    destruct (apply_gate_dense st g Hst) as [Hd En].
    + now apply valid_gate_accepted.
    + apply valid_gate_distinct. destruct Hst. now rewrite Z2Nat.id by lia.
    + destruct (IH (apply_gate g st) Hd) as [Hd' En'].
      * now rewrite En.
      * split; [exact Hd'|]. now rewrite En'.
Qed.

Lemma construct_ok (nq nb : Z) :
  (0 < nq)%Z -> (0 <= nb)%Z ->
  exists st, construct nq nb = Ok st /\ n_qubits st = nq /\ n_bits st = nb
    /\ state st = of_list (initial_entries (Z.to_nat nq))
    /\ cbits st = repeat 0%Z (Z.to_nat nb)
    /\ measurement_qubits st = [] /\ measure_all_flag st = false.
Proof.
  intros Hq Hb. unfold construct.
  destruct (Z.ltb_spec 0 nq); [|lia]. destruct (Z.leb_spec 0 nb); [|lia].
  cbn [andb]. eexists. split; [reflexivity|]. cbn. auto 10.
Qed.

Lemma construct_dense (nq nb : Z) (st : State C) :
  construct nq nb = Ok st -> dense_state st /\ n_qubits st = nq.
Proof.
  unfold construct.
  destruct (Z.ltb_spec 0 nq); cbn [andb]; [|discriminate].
  destruct (Z.leb_spec 0 nb); [|discriminate].
  intros E. inversion E; subst; clear E. cbn. split; [|reflexivity].
  split; [cbn; lia|]. cbn. eexists. split; [reflexivity|].
  apply dense_initial_entries.
Qed.
End Density.

(** ** Construction *)

Lemma in_initial_entries {C} {num : Num C} (n : nat) (b : bitarray) (a : C) :
  In (b, a) (initial_entries n) ->
  (b = repeat false n /\ a = one) \/ (b <> repeat false n /\ a = zero).
Proof.
  unfold initial_entries. rewrite in_map_iff. intros [i [E Hi]].
  apply in_seq in Hi. inversion E; subst; clear E.
  destruct (Nat.eqb_spec i 0) as [->|Hne].
  - left. split; [apply bin_digits_zero | reflexivity].
  - right. split; [|reflexivity]. rewrite <- bin_digits_zero. intros E.
    apply bin_digits_inj in E; [contradiction|lia|].
    pose proof (Nat.pow_nonzero 2 n). lia.
Qed.

(** C1, as the code has it: for [n_qubits > 0] and [n_bits >= 0] the
    constructor succeeds and the amplitude map it builds has
    [2 ** n_qubits] entries, one for every basis state; the all-zero basis
    state has amplitude 1.0 and every other basis state amplitude 0.0. *)
Theorem construct_initial_map {C} {num : Num C} (nq nb : Z) :
  (0 < nq)%Z -> (0 <= nb)%Z ->
  exists st l,
    construct nq nb = Ok st /\ force (state st) = Ok l /\
    length l = 2 ^ Z.to_nat nq /\
    NoDup (keys l) /\
    (forall b, In b (keys l) <-> length b = Z.to_nat nq) /\
    In (repeat false (Z.to_nat nq), one) l /\
    (forall b a, In (b, a) l -> b <> repeat false (Z.to_nat nq) -> a = zero).
Proof.
  intros Hq Hb.
  destruct (construct_ok (C := C) nq nb Hq Hb) as [st [E [_ [_ [Es _]]]]].
  exists st, (initial_entries (Z.to_nat nq)).
  destruct (dense_initial_entries (C := C) (Z.to_nat nq)) as [Hnd Hin].
  split; [exact E|]. split; [rewrite Es; apply force_of_list|].
  split; [apply length_initial_entries|]. split; [exact Hnd|].
  split; [exact Hin|]. split.
  - unfold initial_entries. apply in_map_iff. exists 0. split.
    + now rewrite bin_digits_zero.
    + apply in_seq. pose proof (Nat.pow_nonzero 2 (Z.to_nat nq)). lia.
  - intros b a Hba Hne.
    destruct (in_initial_entries _ b a Hba) as [[E0 _]|[_ E0]];
      [contradiction | exact E0].
Qed.

Lemma construct_initial_map_witness :
  exists st l,
    construct (C := RC) 2 0 = Ok st /\ force (state st) = Ok l /\
    length l = 2 ^ Z.to_nat 2 /\
    NoDup (keys l) /\
    (forall b, In b (keys l) <-> length b = Z.to_nat 2) /\
    In (repeat false (Z.to_nat 2), one) l /\
    (forall b a, In (b, a) l -> b <> repeat false (Z.to_nat 2) -> a = zero).
Proof. apply (construct_initial_map (C := RC) 2 0); lia. Defined.

(** The map of a fresh one-qubit state has two entries, the second one
    with amplitude 0.0: not a single entry. *)
Lemma construct_single_entry_counterexample :
  exists st,
    construct (C := RC) 1 0 = Ok st /\
    force (state st) = Ok [([false], one); ([true], zero)] /\
    force (state st) <> Ok [([false], one)].
Proof.
  eexists. split; [reflexivity|]. split; [reflexivity|]. discriminate.
Qed.

(** ** Density of the reachable states *)

(** C10: after any sequence of gate calls with in-range indices ([cx]
    with distinct control and target) on a fresh state, the amplitude
    map has exactly [2 ** n_qubits] entries, one for each basis state. *)
Theorem gates_keep_every_basis_state {C} {num : Num C} (nq nb : Z)
    (gs : list gate) :
  (0 < nq)%Z -> (0 <= nb)%Z -> Forall (valid_gate nq) gs ->
  exists st l,
    construct nq nb = Ok st /\
    force (state (apply_gates gs st)) = Ok l /\
    length l = 2 ^ Z.to_nat nq /\
    NoDup (keys l) /\
    (forall b, In b (keys l) <-> length b = Z.to_nat nq).
Proof.
  intros Hq Hb Hgs.
  destruct (construct_ok (C := C) nq nb Hq Hb) as [st [E _]].
  destruct (construct_dense nq nb st E) as [Hd En].
  destruct (apply_gates_dense gs st Hd) as [[_ [l [El Hl]]] En'].
  { now rewrite En. }
  rewrite En', En in Hl.
  exists st, l. split; [exact E|]. split; [rewrite El; apply force_of_list|].
  split; [now apply dense_length|]. exact Hl.
Qed.

Lemma gates_keep_every_basis_state_witness :
  exists st l,
    construct (C := RC) 2 0 = Ok st /\
    force (state (apply_gates [GH 0; GCX 0 1; GX 1; GS 0; GT 1] st)) = Ok l /\
    length l = 2 ^ Z.to_nat 2 /\
    NoDup (keys l) /\
    (forall b, In b (keys l) <-> length b = Z.to_nat 2).
Proof.
  apply (gates_keep_every_basis_state (C := RC) 2 0); try lia.
  repeat constructor; cbn; lia.
Defined.

(** ** Amplitudes under exact arithmetic *)

Section Amplitudes.
Context {C : Type} {num : Num C} {exact : ExactNum C}.

Add Ring num_ring_structure : num_ring.

Lemma amp_at_app (l1 l2 : list (entry C)) (k : bitarray) :
  amp_at (l1 ++ l2) k = add (amp_at l1 k) (amp_at l2 k).
Proof.
  induction l1 as [|[b a] l1 IH]; cbn [app amp_at].
  - ring.
  - destruct (bitarray_eq_dec b k); rewrite IH; ring.
Qed.

Lemma amp_at_rbk_insert (acc : list (entry C)) (k k' : bitarray) (v : C) :
  amp_at (rbk_insert add acc k v) k'
  = add (amp_at acc k') (amp_at [(k, v)] k').
Proof.
  induction acc as [|[b a] acc IH]; cbn [rbk_insert amp_at].
  - destruct (bitarray_eq_dec k k'); ring.
  - destruct (bitarray_eq_dec b k) as [->|Hne]; cbn [amp_at].
    + destruct (bitarray_eq_dec k k'); ring.
    + cbn [amp_at] in IH. rewrite IH.
      destruct (bitarray_eq_dec b k'), (bitarray_eq_dec k k'); ring.
Qed.

Lemma amp_at_rbk_fold (l acc : list (entry C)) (k : bitarray) :
  amp_at (fold_left (fun acc kv => rbk_insert add acc (fst kv) (snd kv)) l acc) k
  = add (amp_at acc k) (amp_at l k).
Proof.
  revert acc; induction l as [|[b a] l IH]; intros acc; cbn [fold_left fst snd].
  - cbn. ring.
  - rewrite IH, amp_at_rbk_insert. cbn [amp_at].
    destruct (bitarray_eq_dec b k); ring.
Qed.

(** Merging equal keys leaves the amplitude of every basis state as it
    was. *)
Lemma amp_at_reduce_by_key (l : list (entry C)) (k : bitarray) :
  amp_at (reduce_by_key_impl add l) k = amp_at l k.
Proof.
  unfold reduce_by_key_impl. rewrite amp_at_rbk_fold. cbn. ring.
Qed.




End Amplitudes.

(** ** The Hadamard gate on amplitudes *)

Lemma update_eq_iff (n i : nat) (b k : bitarray) (v : bool) :
  length b = n -> length k = n -> i < n ->
  update b i v = k <->
  update b i false = update k i false /\ bit i k = v.
Proof.
  intros Hb Hk Hi. split.
  - intros <-. rewrite update_update. split; [reflexivity|].
    unfold bit. apply nth_update_same. lia.
  - intros [E Ev]. rewrite <- (update_nth k i false). fold (bit i k).
    rewrite Ev, <- (update_update k i false v), <- E.
    symmetry. apply update_update.
Qed.

Lemma eq_update_iff (n i : nat) (b k : bitarray) (v : bool) :
  length b = n -> length k = n -> i < n ->
  b = update k i v <->
  update b i false = update k i false /\ bit i b = v.
Proof.
  intros Hb Hk Hi. split.
  - intros ->. rewrite update_update. split; [reflexivity|].
    unfold bit. apply nth_update_same. lia.
  - intros [E Ev]. rewrite <- (update_nth b i false) at 1. fold (bit i b).
    rewrite Ev, <- (update_update b i false v), E.
    apply update_update.
Qed.

Section Hadamard.
Context {C : Type} {num : Num C} {exact : ExactNum C}.

Add Ring num_ring_hadamard : num_ring.

Lemma amp_at_h_entries (n i : nat) (e : entry C) (k : bitarray) :
  length (fst e) = n -> length k = n -> i < n ->
  amp_at (h_entries i e) k = hadamard_amp i (amp_at [e]) k.
Proof.
  destruct e as [b a]. cbn [fst]. intros Hb Hk Hi.
  unfold hadamard_amp, h_entries. cbn [amp_at fst snd].
  assert (length (update k i false) = n) as Hk0 by now rewrite length_update.
  assert (length (update k i true) = n) as Hk1 by now rewrite length_update.
  pose proof (update_eq_iff n i b k false Hb Hk Hi) as D1.
  pose proof (update_eq_iff n i b k true Hb Hk Hi) as D2.
  pose proof (eq_update_iff n i b k false Hb Hk Hi) as D3.
  pose proof (eq_update_iff n i b k true Hb Hk Hi) as D4.
  destruct (bitarray_eq_dec (update b i false) k) as [E1|E1];
    destruct (bitarray_eq_dec (update b i true) k) as [E2|E2];
    destruct (bitarray_eq_dec b (update k i false)) as [E3|E3];
    destruct (bitarray_eq_dec b (update k i true)) as [E4|E4];
    destruct (bit i k) eqn:Bk; destruct (bit i b) eqn:Bb;
    cbn [pow_bit];
    try ring; exfalso; intuition congruence.
Qed.

Lemma hadamard_amp_add (i : nat) (A B : bitarray -> C) (k : bitarray) :
  hadamard_amp i (fun k => add (A k) (B k)) k
  = add (hadamard_amp i A k) (hadamard_amp i B k).
Proof. unfold hadamard_amp. destruct (bit i k); ring. Qed.

Lemma hadamard_amp_zero (i : nat) (k : bitarray) :
  hadamard_amp i (fun _ => zero) k = zero.
Proof. unfold hadamard_amp. destruct (bit i k); ring. Qed.

Lemma amp_at_expand (n i : nat) (l : list (entry C)) (k : bitarray) :
  keys_sized n l -> length k = n -> i < n ->
  amp_at (concat (map (h_entries i) l)) k = hadamard_amp i (amp_at l) k.
Proof.
  intros Hl Hk Hi. induction l as [|e l IH].
  - cbn. now rewrite hadamard_amp_zero.
  - cbn [map concat]. rewrite amp_at_app, IH.
    + rewrite (amp_at_h_entries n) by
        (auto; apply Hl; unfold keys; cbn; now left).
      rewrite <- hadamard_amp_add. unfold hadamard_amp.
      destruct e as [b a]. cbn [amp_at].
      destruct (bit i k);
        destruct (bitarray_eq_dec b (update k i false));
        destruct (bitarray_eq_dec b (update k i true)); ring.
    + intros b Hb. apply Hl. unfold keys in *. cbn. now right.
Qed.

(** The amplitudes after [h], for accepted [j]. *)
Lemma amp_at_h (n : nat) (j : Z) (l : list (entry C)) (k : bitarray) :
  keys_sized n l -> length k = n -> index_of n j < n ->
  amp_at (gate_entries n (GH j) l) k
  = hadamard_amp (index_of n j) (amp_at l) k.
Proof.
  intros Hl Hk Hi. cbn [gate_entries].
  rewrite amp_at_reduce_by_key. now apply (amp_at_expand n).
Qed.


End Hadamard.

(** ** Involutions and phase gates *)







Section PhaseGates.
Context {C : Type} {num : Num C} {exact : ExactNum C}.

Add Ring num_ring_phase : num_ring.





(** One gate call on a state whose map is the list [l]. *)
Lemma apply_gate_sized (st : State C) (g : gate) (l : list (entry C)) :
  let n := Z.to_nat (n_qubits st) in
  state st = of_list l -> keys_sized n l -> accepted_gate (n_qubits st) g ->
  apply_gate g st = with_state st (of_list (gate_entries n g l)).
Proof.
  intros n El Hl Hg.
  pose proof (apply_gate_entries st g l El Hl Hg) as E.
  destruct g; cbn [apply_gate] in *; unfold x, cx, s, t, h in *;
    cbn [state with_state] in E; now rewrite E.
Qed.


End PhaseGates.

(** ** The complex numbers satisfy the laws *)

Lemma inv_sqrt2_sq : (/ R_sqrt.sqrt 2 * / R_sqrt.sqrt 2 = / 2)%R.
Proof.
  rewrite <- Rinv_mult, sqrt_sqrt by lra. reflexivity.
Qed.

#[export] Instance RC_exact : ExactNum RC.
Proof.
  pose proof inv_sqrt2_sq as Hs.
  set (r := (/ R_sqrt.sqrt 2)%R) in Hs.
  constructor.
  - constructor; intros; repeat match goal with x : RC |- _ => destruct x end;
      cbn; unfold RC_mul; cbn; f_equal; ring.
  - cbn. unfold RC_mul. cbn. f_equal; ring.
  - cbn. unfold RC_mul. cbn. fold r. f_equal; nra.
  - cbn. unfold RC_mul. cbn. fold r. f_equal; nra.
  - cbn. f_equal; ring.
  - cbn. f_equal; ring.
  - intros [a b] [c d]. cbn. unfold RC_mul. cbn. f_equal; ring.
  - cbn. f_equal; ring.
  - cbn. fold r. f_equal. nra.
  - cbn. unfold RC_mul. cbn. fold r. f_equal; nra.
  - intros [a b] [c d]. cbn. unfold RC_mul. cbn. f_equal; ring.
Qed.

#[export] Instance RC_ordered : OrderedNum RC.
Proof.
  constructor.
  - intros [p q]. cbn. destruct (Rlt_dec 0 p); [|discriminate].
    intros _. destruct (Rlt_dec p 0); [lra | reflexivity].
  - intros [p q]. cbn. destruct (Rlt_dec 0 p) as [Hp|]; [|discriminate].
    intros _. apply sqrt_lt_R0 in Hp.
    destruct (Req_dec_T (R_sqrt.sqrt p) 0); [lra | reflexivity].
Qed.


Section Involutions.
Context {C : Type} {num : Num C} {exact : ExactNum C}.


End Involutions.


(** ** Normalization *)


Section Normalization.
Context {C : Type} {num : Num C} {exact : ExactNum C}.

Add Ring num_ring_normalization : num_ring.













End Normalization.



(** ** Indices the gates do not accept *)

Section Rejection.
Context {C : Type} {num : Num C}.

Lemma dense_has_key (n : nat) (l : list (entry C)) (b : bitarray) :
  dense n l -> length b = n -> exists a, In (b, a) l.
Proof.
  intros [_ Hin] Hb. apply Hin in Hb. unfold keys in Hb.
  apply in_map_iff in Hb. destruct Hb as [[b' a] [E H]]. cbn in E. subst.
  now exists a.
Qed.

Lemma entry_sized (n : nat) (l : list (entry C)) (e : entry C) :
  keys_sized n l -> In e l -> length (fst e) = n.
Proof. intros Hl He. apply Hl. unfold keys. now apply in_map. Qed.

Lemma getitem_rejects (n : nat) (b : bitarray) (j : Z) :
  length b = n -> ~ (- Z.of_nat n <= j < Z.of_nat n)%Z ->
  getitem b j = Raise (IndexError "index out of range").
Proof.
  intros Hb Hj. apply getitem_none. rewrite Hb. apply py_index_none. lia.
Qed.

Lemma set_bit_rejects (n : nat) (b : bitarray) (j : Z) (v : bool) :
  length b = n -> ~ (- Z.of_nat n <= j < Z.of_nat n)%Z ->
  set_bit b j v = Raise (IndexError "assignment index out of range").
Proof.
  intros Hb Hj. unfold set_bit, setitem. rewrite Hb.
  rewrite py_index_none; [reflexivity | lia].
Qed.

(** On a dense map, a gate call with an index that is not accepted
    leaves a sequence that raises when it is evaluated. *)
Lemma unaccepted_gate_raises (st : State C) (g : gate) :
  dense_state st -> ~ accepted_gate (n_qubits st) g ->
  is_raise (force (state (apply_gate g st))).
Proof.
  intros [Hn [l [El Hl]]] Hg.
  set (n := Z.to_nat (n_qubits st)) in *.
  assert (Z.of_nat n = n_qubits st) as En by (unfold n; lia).
  pose proof (dense_keys_sized n l Hl) as Hs.
  destruct (dense_has_key n l (repeat false n) Hl (repeat_length _ _))
    as [a0 Ha0].
  assert (l <> []) as Hne by (intros ->; destruct Ha0).
  destruct g as [j|j k|j|j|j]; cbn [apply_gate accepted_gate] in *;
    unfold x, cx, s, t, h; cbn [state with_state]; rewrite El.
  - apply smap_raises; auto. intros [b a] He. unfold x_fn.
    rewrite flip_rejects.
    + eexists. reflexivity.
    + pose proof (entry_sized n l (b, a) Hs He) as Hb. cbn [fst] in Hb.
      rewrite Hb. lia.
  - destruct (Z_le_dec (- Z.of_nat n) j) as [Hj1|Hj1];
      [destruct (Z_lt_dec j (Z.of_nat n)) as [Hj2|Hj2]|].
    + (* the control is accepted, the target is not *)
      assert (~ (0 <= k < Z.of_nat n)%Z) as Hk by lia.
      destruct (index_of_accepts n j (conj Hj1 Hj2)) as [_ Hi].
      set (b := update (repeat false n) (index_of n j) true).
      assert (length b = n) as Hb
        by (unfold b; now rewrite length_update, repeat_length).
      destruct (dense_has_key n l b Hl Hb) as [a Ha].
      apply (smap_raises_at _ l (b, a) Ha). unfold cx_fn.
      rewrite (getitem_accepts n b j Hb (conj Hj1 Hj2)). cbn [rbind].
      replace (bit (index_of n j) b) with true.
      * cbn [negb]. rewrite flip_rejects by (rewrite Hb; exact Hk).
        eexists. reflexivity.
      * unfold b, bit. symmetry. apply nth_update_same.
        now rewrite repeat_length.
    + apply smap_raises; auto. intros [b a] He. unfold cx_fn.
      rewrite (getitem_rejects n) by
        (try apply (entry_sized n l (b, a) Hs He); lia).
      eexists. reflexivity.
    + apply smap_raises; auto. intros [b a] He. unfold cx_fn.
      rewrite (getitem_rejects n) by
        (try apply (entry_sized n l (b, a) Hs He); lia).
      eexists. reflexivity.
  - apply smap_raises; auto. intros [b a] He. unfold s_fn.
    rewrite (getitem_rejects n) by
      (try apply (entry_sized n l (b, a) Hs He); lia).
    eexists. reflexivity.
  - apply smap_raises; auto. intros [b a] He. unfold t_fn.
    rewrite (getitem_rejects n) by
      (try apply (entry_sized n l (b, a) Hs He); lia).
    eexists. reflexivity.
  - apply force_reduce_by_key_raise, force_flatten_raise.
    apply smap_raises; auto. intros [b a] He. unfold h_fn.
    rewrite (set_bit_rejects n) by
      (try apply (entry_sized n l (b, a) Hs He); lia).
    eexists. reflexivity.
Qed.

Lemma accepted_gate_dec (n : Z) (g : gate) :
  {accepted_gate n g} + {~ accepted_gate n g}.
Proof.
  destruct g as [j|j k|j|j|j]; cbn.
  - destruct (Z_le_dec 0 j), (Z_lt_dec j n); (left; lia) || (right; lia).
  - destruct (Z_le_dec (- n) j), (Z_lt_dec j n), (Z_le_dec 0 k),
      (Z_lt_dec k n); (left; lia) || (right; lia).
  - destruct (Z_le_dec (- n) j), (Z_lt_dec j n); (left; lia) || (right; lia).
  - destruct (Z_le_dec (- n) j), (Z_lt_dec j n); (left; lia) || (right; lia).
  - destruct (Z_le_dec (- n) j), (Z_lt_dec j n); (left; lia) || (right; lia).
Qed.

Lemma ok_not_raise {A} (r : result A) : is_ok r -> ~ is_raise r.
Proof. intros [a ->] [e E]. discriminate. Qed.

(** When the evaluation of the map after a gate call succeeds. *)
Lemma gate_evaluates_iff (st : State C) (g : gate) :
  dense_state st ->
  is_ok (force (state (apply_gate g st))) <-> accepted_gate (n_qubits st) g.
Proof.
  intros Hd. split.
  - intros Hok.
    destruct (accepted_gate_dec (n_qubits st) g) as [Ha|Ha].
    + exact Ha.
    + exfalso. apply (ok_not_raise _ Hok).
      now apply unaccepted_gate_raises.
  - intros Ha. pose proof Hd as [_ [l [El Hl]]].
    rewrite (apply_gate_entries st g l El (dense_keys_sized _ _ Hl) Ha).
    rewrite force_of_list. eexists. reflexivity.
Qed.
End Rejection.

Lemma raise_iff_not_ok {A} (r : result A) : is_raise r <-> ~ is_ok r.
Proof.
  destruct r as [a|e]; split.
  - intros [e E]. discriminate.
  - intros H. exfalso. apply H. now exists a.
  - intros _ [a E]. discriminate.
  - intros _. now exists e.
Qed.

(** C5, as the code has it: no call checks its index.  [measure] records
    any index and leaves the rest of the state alone.  A gate call
    returns without evaluating anything; on a state whose map holds every
    basis state, evaluating the map afterwards raises exactly when the
    index of [x] or the target of [cx] is outside [0, n_qubits), or the
    index of [s], [t], [h] or the control of [cx] is outside
    [-n_qubits, n_qubits). *)
Theorem index_checks {C} {num : Num C} (st : State C) (g : gate) (j : Z)
    (cbit : option Z) :
  dense_state st ->
  measurement_qubits (measure j cbit st) = set_add j (measurement_qubits st) /\
  state (measure j cbit st) = state st /\
  (is_raise (force (state (apply_gate g st)))
   <-> ~ accepted_gate (n_qubits st) g).
Proof.
  intros Hd. split; [reflexivity|]. split; [reflexivity|].
  rewrite raise_iff_not_ok, (gate_evaluates_iff st g Hd). tauto.
Qed.

Lemma index_checks_witness :
  exists st,
    construct (C := RC) 2 0 = Ok st /\
    measurement_qubits (measure 7 None st)
    = set_add 7 (measurement_qubits st) /\
    state (measure 7 None st) = state st /\
    (is_raise (force (state (apply_gate (GH 2) st)))
     <-> ~ accepted_gate (n_qubits st) (GH 2)).
Proof.
  destruct (construct_ok (C := RC) 2 0) as [st [E _]]; try lia.
  exists st. split; [exact E|].
  apply (index_checks st (GH 2) 7 None).
  now apply (construct_dense 2 0).
Defined.

(** On a one-qubit state, [measure(5)] returns with 5 recorded, and
    [s(-1)] returns a state whose map evaluates, to what [s(0)] gives:
    two calls with an index outside [0, 1) that do not fail. *)
Lemma index_checks_counterexample :
  exists st,
    construct (C := RC) 1 0 = Ok st /\
    measurement_qubits (measure 5 None st) = [5%Z] /\
    state (measure 5 None st) = state st /\
    is_ok (force (state (s (-1) st))) /\
    s (-1) st = s 0 st.
Proof.
  eexists. split; [reflexivity|]. split; [reflexivity|].
  split; [reflexivity|]. split; [|reflexivity].
  eexists. reflexivity.
Qed.

(** C6, as the code has it: a gate call assigns the amplitude map and
    nothing else.  On a state whose map holds every basis state, with
    accepted indices the new map evaluates to the transformed entries of
    the old one; with any other index the call still returns, and the new
    map raises when it is evaluated. *)
Theorem gate_call_effect {C} {num : Num C} (st : State C) (g : gate) :
  dense_state st ->
  (n_qubits (apply_gate g st) = n_qubits st /\
   n_bits (apply_gate g st) = n_bits st /\
   cbits (apply_gate g st) = cbits st /\
   measurement_qubits (apply_gate g st) = measurement_qubits st /\
   measure_all_flag (apply_gate g st) = measure_all_flag st) /\
  (accepted_gate (n_qubits st) g ->
   exists l, force (state st) = Ok l /\
             force (state (apply_gate g st))
             = Ok (gate_entries (Z.to_nat (n_qubits st)) g l)) /\
  (~ accepted_gate (n_qubits st) g ->
   is_raise (force (state (apply_gate g st)))).
Proof.
  intros Hd. split; [destruct g; cbn; auto 10|]. split.
  - intros Ha. pose proof Hd as [_ [l [El Hl]]]. exists l.
    rewrite (apply_gate_entries st g l El (dense_keys_sized _ _ Hl) Ha).
    rewrite El, !force_of_list. auto.
  - now apply unaccepted_gate_raises.
Qed.

Lemma gate_call_effect_witness :
  exists st,
    construct (C := RC) 2 0 = Ok st /\
    (n_qubits (apply_gate (GCX 0 1) st) = n_qubits st /\
     n_bits (apply_gate (GCX 0 1) st) = n_bits st /\
     cbits (apply_gate (GCX 0 1) st) = cbits st /\
     measurement_qubits (apply_gate (GCX 0 1) st) = measurement_qubits st /\
     measure_all_flag (apply_gate (GCX 0 1) st) = measure_all_flag st) /\
    (accepted_gate (n_qubits st) (GCX 0 1) ->
     exists l, force (state st) = Ok l /\
               force (state (apply_gate (GCX 0 1) st))
               = Ok (gate_entries (Z.to_nat (n_qubits st)) (GCX 0 1) l)) /\
    (~ accepted_gate (n_qubits st) (GCX 0 1) ->
     is_raise (force (state (apply_gate (GCX 0 1) st)))).
Proof.
  destruct (construct_ok (C := RC) 2 0) as [st [E _]]; try lia.
  exists st. split; [exact E|].
  apply (gate_call_effect st (GCX 0 1)).
  now apply (construct_dense 2 0).
Defined.

(** On a one-qubit state, [cx(0, 5)] returns; the map it leaves yields
    the entry of the basis state 0, passed through, and then raises:
    the call has not failed, and the map is not the transformed map. *)
Lemma gate_atomicity_counterexample :
  exists st,
    construct (C := RC) 1 0 = Ok st /\
    force (state st) = Ok [([false], one); ([true], zero)] /\
    state (cx 0 5 st)
    = scons ([false], one)
        (sraise (ValueError "bitarrays of equal length expected")) /\
    force (state (cx 0 5 st))
    = Raise (ValueError "bitarrays of equal length expected").
Proof.
  eexists. split; [reflexivity|]. split; [reflexivity|].
  split; reflexivity.
Qed.

(** ** [run] leaves the prepared state alone *)

Section Frame.
Context {C : Type} {num : Num C}.

Lemma keeps_refl (w : World (C := C)) : keeps w w.
Proof. split; auto. Qed.

Lemma preserves_bind {A B} (w0 : World (C := C)) (V : A -> Prop)
    (V' : B -> Prop) (m : M A) (k : A -> M B) :
  preserves w0 V m -> (forall a, V a -> preserves w0 V' (k a)) ->
  preserves w0 V' (bind m k).
Proof.
  intros Hm Hk w Hw. unfold bind. destruct (Hm w Hw) as [Hw' Hv].
  destruct (m w) as [[a|e] w']; cbn [fst snd] in *.
  - apply Hk; auto.
  - split; [assumption|]. intros a E. discriminate.
Qed.

Lemma preserves_weaken {A} (w0 : World (C := C)) (V V' : A -> Prop) (m : M A) :
  (forall a, V a -> V' a) -> preserves w0 V m -> preserves w0 V' m.
Proof.
  intros HV Hm w Hw. destruct (Hm w Hw) as [Hw' Hv]. split; auto.
Qed.

Lemma preserves_pure {A} (w0 : World (C := C)) (V : A -> Prop) (r : result A) :
  (forall a, r = Ok a -> V a) -> preserves w0 V (lift r).
Proof. intros HV w Hw. unfold lift. cbn. auto. Qed.

Lemma preserves_ret {A} (w0 : World (C := C)) (V : A -> Prop) (a : A) :
  V a -> preserves w0 V (ret a).
Proof.
  intros HV w Hw. unfold ret. cbn. split; auto.
  intros a' E. now inversion E; subst.
Qed.

Lemma preserves_throw {A} (w0 : World (C := C)) (V : A -> Prop) (e : exn) :
  preserves w0 V (throw e).
Proof.
  intros w Hw. unfold throw. cbn. split; auto. intros a E. discriminate.
Qed.

Lemma preserves_deref (w0 : World (C := C)) (p : nat) :
  preserves w0 (fun _ => True) (deref p).
Proof. intros w Hw. unfold deref. cbn. auto. Qed.

Lemma preserves_random (w0 : World (C := C)) :
  preserves w0 (fun _ => True) random.
Proof. intros w Hw. unfold random. cbn. auto. Qed.

(** A new object is none of the old ones. *)
Lemma preserves_alloc (w0 : World (C := C)) (st : State C) :
  preserves w0 (fun p => next w0 <= p) (alloc st).
Proof.
  intros w [Hn Hc]. unfold alloc. cbn. split.
  - split; cbn; [lia|]. intros p Hp.
    destruct (Nat.eqb_spec p (next w)); [lia|]. now apply Hc.
  - intros a E. inversion E; subst. exact Hn.
Qed.

(** Assigning to an object made since [w0] changes none of [w0]. *)
Lemma preserves_assign (w0 : World (C := C)) (p : nat) (st : State C) :
  next w0 <= p -> preserves w0 (fun _ => True) (assign p st).
Proof.
  intros Hp w [Hn Hc]. unfold assign. cbn. split; [|auto].
  split; cbn; [lia|]. intros q Hq.
  destruct (Nat.eqb_spec q p); [lia|]. now apply Hc.
Qed.

Lemma preserves_copy (w0 : World (C := C)) (self : nat) :
  preserves w0 (fun p => next w0 <= p) (copy self).
Proof.
  unfold copy.
  apply preserves_bind with (V := fun _ => True); [apply preserves_deref|].
  intros st _.
  apply preserves_bind with (V := fun _ => True); [now apply preserves_pure|].
  intros new _.
  apply preserves_bind with (V := fun p => next w0 <= p);
    [apply preserves_alloc|].
  intros p Hp.
  apply preserves_bind with (V := fun _ => True);
    [now apply preserves_assign|].
  intros _ _. now apply preserves_ret.
Qed.

Lemma preserves_measure_qubit (w0 : World (C := C)) (temp_state : nat)
    (result_bits : list string) (qubit : Z) :
  next w0 <= temp_state ->
  preserves w0 (fun _ => True) (measure_qubit temp_state result_bits qubit).
Proof.
  intros Ht. unfold measure_qubit.
  apply preserves_bind with (V := fun _ => True); [apply preserves_deref|].
  intros ts _.
  apply preserves_bind with (V := fun _ => True); [now apply preserves_pure|].
  intros current_state _.
  apply preserves_bind with (V := fun _ => True); [now apply preserves_pure|].
  intros prob_0 _.
  apply preserves_bind with (V := fun _ => True); [apply preserves_random|].
  intros r _.
  apply preserves_bind with (V := fun _ => True); [now apply preserves_pure|].
  intros rb _.
  apply preserves_bind with (V := fun _ => True); [now apply preserves_pure|].
  intros new_state _.
  apply preserves_bind with (V := fun _ => True); [apply preserves_deref|].
  intros ts' _.
  apply preserves_bind with (V := fun _ => True);
    [now apply preserves_assign|].
  intros _ _. now apply preserves_ret.
Qed.

Lemma preserves_measure_qubits (w0 : World (C := C)) (temp_state : nat)
    (qubits : list Z) (result_bits : list string) :
  next w0 <= temp_state ->
  preserves w0 (fun _ => True) (measure_qubits temp_state result_bits qubits).
Proof.
  intros Ht. revert result_bits.
  induction qubits as [|q qs IH]; intros rb; cbn [measure_qubits].
  - now apply preserves_ret.
  - apply preserves_bind with (V := fun _ => True);
      [now apply preserves_measure_qubit|].
    intros rb' _. apply IH.
Qed.

Lemma preserves_shot (w0 : World (C := C)) (state : nat) (qubits : list Z)
    (counts : list (string * Z)) :
  preserves w0 (fun _ => True) (shot state qubits counts).
Proof.
  unfold shot.
  apply preserves_bind with (V := fun p => next w0 <= p);
    [apply preserves_copy|].
  intros temp Ht.
  apply preserves_bind with (V := fun _ => True); [apply preserves_deref|].
  intros st _.
  apply preserves_bind with (V := fun _ => True);
    [now apply preserves_measure_qubits|].
  intros rb _.
  apply preserves_bind with (V := fun _ => True); [apply preserves_deref|].
  intros st' _.
  apply preserves_bind with (V := fun _ => True).
  - destruct (measure_all_flag st'); [now apply preserves_ret|].
    apply preserves_bind with (V := fun _ => True);
      [now apply preserves_pure|].
    intros cs _. now apply preserves_ret.
  - intros res _. now apply preserves_ret.
Qed.

Lemma preserves_shots_loop (w0 : World (C := C)) (n : nat) (state : nat)
    (qubits : list Z) (counts : list (string * Z)) :
  preserves w0 (fun _ => True) (shots_loop n state qubits counts).
Proof.
  revert counts. induction n as [|n IH]; intros counts; cbn [shots_loop].
  - now apply preserves_ret.
  - apply preserves_bind with (V := fun _ => True); [apply preserves_shot|].
    intros counts' _. apply IH.
Qed.

Lemma preserves_run (w0 : World (C := C)) (state : nat) (shots : Z) :
  preserves w0 (fun _ => True) (run state shots).
Proof.
  unfold run. destruct (shots <=? 0)%Z; [apply preserves_throw|].
  apply preserves_bind with (V := fun _ => True); [apply preserves_deref|].
  intros st _.
  destruct (match measurement_qubits st with [] => true | _ => false end
            && negb (measure_all_flag st)); [apply preserves_throw|].
  apply preserves_bind with (V := fun _ => True); [apply preserves_deref|].
  intros st' _.
  apply preserves_bind with (V := fun _ => True);
    [apply preserves_shots_loop|].
  intros counts _. now apply preserves_ret.
Qed.

(** C8: whatever [run] does, and whether it returns or raises, every
    object that existed before the call, the prepared state among them,
    is afterwards what it was: its amplitude map, its classical register
    and its measurement plan are unchanged. *)
Theorem run_leaves_state_untouched (w : World (C := C)) (state : nat)
    (shots : Z) :
  state < next w ->
  cells (snd (run state shots w)) state = cells w state.
Proof.
  intros Hs.
  destruct (preserves_run w state shots w (keeps_refl w)) as [[_ Hc] _].
  now apply Hc.
Qed.
End Frame.

Lemma run_leaves_state_untouched_witness :
  exists st,
    construct (C := RC) 2 0 = Ok st /\
    let w := {| cells := fun _ => measure_all (cx 0 1 (h 0 st));
                next := 1; rng := fun _ => (1 / 2, 0)%R; draws := 0 |} in
    cells (snd (run 0 10 w)) 0 = cells w 0.
Proof.
  eexists. split; [reflexivity|].
  apply run_leaves_state_untouched. cbn. lia.
Defined.

(** ** The collapse never divides by zero *)

Lemma getitem_raises_index {A} (l : list A) (j : Z) (e : exn) :
  getitem l j = Raise e -> exists msg, e = IndexError msg.
Proof.
  unfold getitem. destruct (py_index (length l) j) as [k|].
  - destruct (nth_error l k); intros E; inversion E; eauto.
  - intros E; inversion E; eauto.
Qed.

Section Collapse.
Context {C : Type} {num : Num C} {ord : OrderedNum C}.

Lemma collapse_no_zero_division (qubit : Z) (outcome : bool) (p : C)
    (l : list (entry C)) (msg : string) :
  collapse qubit outcome p l <> Raise (ZeroDivisionError msg).
Proof.
  induction l as [|[b a] l IH]; cbn [collapse]; [discriminate|].
  destruct (getitem b qubit) as [bq|e] eqn:Eg; cbn [rbind].
  - destruct ((if outcome then bq else negb bq) && ltb zero p) eqn:Ec;
      [|exact IH].
    apply andb_true_iff in Ec. destruct Ec as [_ Hp].
    unfold py_sqrt. rewrite (lt_asym p Hp). cbn [rbind].
    unfold py_div. rewrite (sqrt_nonzero p Hp). cbn [rbind].
    destruct (collapse qubit outcome p l) as [rest|e];
      cbn [rbind]; [discriminate | exact IH].
  - apply getitem_raises_index in Eg. destruct Eg as [m ->]. discriminate.
Qed.

Lemma collapse_skips (qubit : Z) (outcome : bool) (p : C)
    (l : list (entry C)) :
  ltb zero p = false ->
  collapse qubit outcome p l = Ok [] \/
  exists msg, collapse qubit outcome p l = Raise (IndexError msg).
Proof.
  intros Hp. induction l as [|[b a] l IH]; cbn [collapse]; [now left|].
  destruct (getitem b qubit) as [bq|e] eqn:Eg; cbn [rbind].
  - rewrite Hp, andb_false_r. exact IH.
  - apply getitem_raises_index in Eg. destruct Eg as [m ->]. right.
    now exists m.
Qed.

(** C9: the collapse never raises [ZeroDivisionError]; and when the
    probability of the observed outcome is not above zero, no entry is
    kept and nothing is divided: the collapse yields the empty list
    (unless indexing the basis state fails first). *)
Theorem collapse_never_divides_by_zero (qubit : Z) (outcome : bool) (p : C)
    (l : list (entry C)) :
  (forall msg, collapse qubit outcome p l <> Raise (ZeroDivisionError msg)) /\
  (ltb zero p = false ->
   collapse qubit outcome p l = Ok [] \/
   exists msg, collapse qubit outcome p l = Raise (IndexError msg)).
Proof.
  split.
  - intros msg. apply collapse_no_zero_division.
  - apply collapse_skips.
Qed.
End Collapse.

Lemma collapse_never_divides_by_zero_witness :
  (forall msg,
     collapse (C := RC) 0 false zero [([false], zero); ([true], one)]
     <> Raise (ZeroDivisionError msg)) /\
  (ltb (C := RC) zero zero = false ->
   collapse (C := RC) 0 false zero [([false], zero); ([true], one)] = Ok [] \/
   exists msg,
     collapse (C := RC) 0 false zero [([false], zero); ([true], one)]
     = Raise (IndexError msg)).
Proof.
  exact (collapse_never_divides_by_zero (C := RC) 0 false zero
           [([false], zero); ([true], one)]).
Defined.

(** ** When [run] fails *)

Lemma in_insert_sorted {A} (le : A -> A -> bool) (a b : A) (l : list A) :
  In b (insert_sorted le a l) -> b = a \/ In b l.
Proof.
  induction l as [|c l IH]; cbn.
  - intros [<-|[]]. now left.
  - destruct (le a c); cbn.
    + intros [<-|H]; auto.
    + intros [<-|H]; auto. destruct (IH H); auto.
Qed.

Lemma in_sorted {A} (le : A -> A -> bool) (b : A) (l : list A) :
  In b (sorted le l) -> In b l.
Proof.
  induction l as [|a l IH]; cbn; [auto|].
  intros H. apply in_insert_sorted in H. destruct H as [->|H]; auto.
Qed.



Section RunSucceeds.
Context {C : Type} {num : Num C} {ord : OrderedNum C}.








End RunSucceeds.


(** ** The documented scenarios *)

(** Task 1: two qubits, [x] on qubit 0 three times; the state is [|10>]
    with amplitude 1. *)
Example task1_state {C} {num : Num C} :
  exists st,
    construct (C := C) 2 0 = Ok st /\
    force (state (x 0 (x 0 (x 0 st))))
    = Ok [([true; false], one); ([true; true], zero);
          ([false; false], zero); ([false; true], zero)].
Proof. eexists. split; reflexivity. Qed.

(** The Bell pair: [h] on qubit 0, then [cx(0, 1)]; the entries, in
    the order of the sequence, are those of [|00>], [|11>], [|01>] and
    [|10>], the first two with amplitude [1 * (1 / sqrt(2))] (plus a
    zero term), the last two with sums of zero terms. *)
Example bell_state {C} {num : Num C} :
  exists st,
    construct (C := C) 2 0 = Ok st /\
    force (state (cx 0 1 (h 0 st)))
    = Ok [([false; false], add (mul one inv_sqrt2) (mul zero inv_sqrt2));
          ([true; true],
           add (mul (mul one inv_sqrt2) (pow_bit (opp one) false))
               (mul (mul zero inv_sqrt2) (pow_bit (opp one) true)));
          ([false; true], add (mul zero inv_sqrt2) (mul zero inv_sqrt2));
          ([true; false],
           add (mul (mul zero inv_sqrt2) (pow_bit (opp one) false))
               (mul (mul zero inv_sqrt2) (pow_bit (opp one) true)))].
Proof. eexists. split; reflexivity. Qed.

(** The error scenarios: a register of no qubits, zero shots, and a
    state with no qubit marked. *)
Example error_scenarios {C} {num : Num C} (w : World (C := C)) (st : State C) :
  construct (C := C) 0 0 = Raise AssertionError /\
  run 0 0 w = (Raise shots_error, w) /\
  (construct 1 0 = Ok st ->
   run 0 1 {| cells := fun _ => st; next := 1; rng := rng w; draws := 0 |}
   = (Raise no_measurement_error,
      {| cells := fun _ => st; next := 1; rng := rng w; draws := 0 |})).
Proof.
  split; [reflexivity|]. split; [reflexivity|].
  intros E. inversion E; subst. reflexivity.
Qed.

Ltac reduce_run :=
  lazy -[Rle_dec Rlt_dec Req_dec_T R_sqrt.sqrt Rplus Rmult Rminus Rdiv Rinv
         Ropp IZR].

Ltac decide_reals :=
  repeat (reduce_run;
    match goal with
    | |- context [R_sqrt.sqrt ?a] =>
        progress (replace a with 1%R by lra; rewrite sqrt_1)
    | |- context [Rle_dec ?a ?b] =>
        destruct (Rle_dec a b); [try (exfalso; lra) | try (exfalso; lra)]
    | |- context [Rlt_dec ?a ?b] =>
        destruct (Rlt_dec a b); [try (exfalso; lra) | try (exfalso; lra)]
    | |- context [Req_dec_T ?a ?b] =>
        destruct (Req_dec_T a b); [try (exfalso; lra) | try (exfalso; lra)]
    end).

(** Task 1 measured: all qubits marked, one shot; whatever the random
    number (here 1/2), the only outcome is ["10"]. *)
Example task1_run :
  exists st,
    construct (C := RC) 2 0 = Ok st /\
    let w := {| cells := fun _ => measure_all (x 0 (x 0 (x 0 st)));
                next := 1; rng := fun _ => (1 / 2, 0)%R; draws := 0 |} in
    fst (run 0 1 w) = Ok [("10"%string, 1%Z)].
Proof.
  eexists. split; [reflexivity|]. decide_reals. reflexivity.
Qed.

(** * Further properties of the code *)

(** ** The bit helpers *)

(** X1: [flip] with an index inside the bit array negates that bit and
    no other, keeps the length, and undoes itself. *)
Theorem flip_round_trip (b : bitarray) (j : Z) :
  (0 <= j < Z.of_nat (length b))%Z ->
  exists b',
    flip b j = Ok b' /\ flip b' j = Ok b /\ length b' = length b /\
    forall i, nth i b' false
              = if Nat.eqb i (Z.to_nat j) then negb (nth i b false)
                else nth i b false.
Proof.
  intros Hj. exists (negate (Z.to_nat j) b).
  split; [now apply flip_ok|]. split.
  - rewrite flip_ok by (rewrite length_negate; exact Hj).
    f_equal. apply negate_negate. lia.
  - split; [apply length_negate|]. intros i.
    destruct (Nat.eqb_spec i (Z.to_nat j)) as [->|Hne].
    + apply bit_negate_same. lia.
    + apply bit_negate_other. congruence.
Qed.

Lemma flip_round_trip_witness :
  exists b',
    flip [true; false; true] 1 = Ok b' /\
    flip b' 1 = Ok [true; false; true] /\
    length b' = length [true; false; true] /\
    forall i, nth i b' false
              = if Nat.eqb i (Z.to_nat 1)
                then negb (nth i [true; false; true] false)
                else nth i [true; false; true] false.
Proof. apply (flip_round_trip [true; false; true] 1). cbn. lia. Defined.


(** X3: [set_bit] succeeds exactly for an index within
    [-len(x), len(x)); the result has the same length, reading the same
    index back gives the value written, and every other position is as
    before. *)
Theorem set_bit_behaviour (b : bitarray) (j : Z) (v : bool) :
  (is_ok (set_bit b j v)
   <-> (- Z.of_nat (length b) <= j < Z.of_nat (length b))%Z) /\
  forall b', set_bit b j v = Ok b' ->
    length b' = length b /\ getitem b' j = Ok v /\
    forall i, i <> index_of (length b) j -> nth i b' false = nth i b false.
Proof.
  split.
  - split.
    + intros [b' E]. unfold set_bit, setitem in E.
      destruct (py_index (length b) j) as [i|] eqn:Ei; [|discriminate].
      now apply py_index_some in Ei.
    + intros Hj. rewrite (set_bit_accepts (length b) b j v eq_refl Hj).
      eexists. reflexivity.
  - intros b' E. unfold set_bit, setitem in E.
    destruct (py_index (length b) j) as [i|] eqn:Ei; [|discriminate].
    inversion E; subst. pose proof (py_index_some _ _ _ Ei) as [Hi Hj].
    split; [apply length_update|]. split.
    + rewrite (getitem_some (update b i v) j i false)
        by (now rewrite length_update).
      f_equal. now apply nth_update_same.
    + intros i' Hne. unfold index_of in Hne. rewrite Ei in Hne.
      apply nth_update_other. congruence.
Qed.

(** X4: the basis states built by [__init__] from [format(i, "0nb")]:
    every one has [n] bits, different [i] below [2 ** n] give different
    basis states, and every string of [n] bits is built from some [i]. *)
Theorem basis_state_numbering (n : nat) :
  (forall i, length (bin_digits n i) = n) /\
  (forall i i', i < 2 ^ n -> i' < 2 ^ n ->
     bin_digits n i = bin_digits n i' -> i = i') /\
  (forall b, length b = n -> exists i, i < 2 ^ n /\ bin_digits n i = b).
Proof.
  split; [apply length_bin_digits|]. split.
  - apply bin_digits_inj.
  - apply bin_digits_surj.
Qed.

(** ** What the gates do to the amplitudes *)

Section GateAmplitudes.
Context {C : Type} {num : Num C} {exact : ExactNum C}.

Add Ring num_ring_gate_amplitudes : num_ring.

(** Moving the keys by an involution moves the amplitudes with them. *)
Lemma amp_at_map_keys (n : nat) (phi : bitarray -> bitarray)
    (l : list (entry C)) (k : bitarray) :
  (forall b, length b = n -> length (phi b) = n /\ phi (phi b) = b) ->
  keys_sized n l -> length k = n ->
  amp_at (map (fun e => (phi (fst e), snd e)) l) k = amp_at l (phi k).
Proof.
  intros Hphi Hl Hk. induction l as [|[b a] l IH]; cbn [map amp_at fst snd];
    [reflexivity|].
  assert (length b = n) as Hb by (apply Hl; unfold keys; cbn; now left).
  rewrite IH by (intros k' Hk'; apply Hl; unfold keys in *; cbn; now right).
  destruct (bitarray_eq_dec (phi b) k) as [E|E];
    destruct (bitarray_eq_dec b (phi k)) as [E'|E']; try reflexivity.
  - exfalso. apply E'. rewrite <- E. symmetry. now apply Hphi.
  - exfalso. apply E. rewrite E'. now apply Hphi.
Qed.

Lemma amp_at_map_scale (f : bitarray -> C) (l : list (entry C))
    (k : bitarray) :
  amp_at (map (fun e => (fst e, mul (f (fst e)) (snd e))) l) k
  = mul (f k) (amp_at l k).
Proof.
  induction l as [|[b a] l IH]; cbn [map amp_at fst snd]; [ring|].
  rewrite IH. destruct (bitarray_eq_dec b k) as [->|E]; ring.
Qed.

(** X5: on a state whose map holds every basis state once, each gate
    acts on the amplitudes as the gate it is named after: [x] exchanges
    the amplitudes of the two basis states that differ in the qubit,
    [cx] does so where the control bit is set, [s] and [t] multiply the
    amplitude by [1j] and by [exp(1j * pi / 4)] where the bit is set,
    and [h] replaces the pair by its sum and difference over
    [sqrt(2)]. *)
Theorem gate_amplitudes (st : State C) (g : gate) :
  dense_state st -> valid_gate (n_qubits st) g ->
  let n := Z.to_nat (n_qubits st) in
  exists l l',
    force (state st) = Ok l /\
    force (state (apply_gate g st)) = Ok l' /\
    forall k, length k = n ->
      amp_at l' k
      = match g with
        | GX j => amp_at l (negate (index_of n j) k)
        | GCX j t =>
            amp_at l (if bit (index_of n j) k
                      then negate (index_of n t) k else k)
        | GS j => mul (pow_bit imag (bit (index_of n j) k)) (amp_at l k)
        | GT j => mul (pow_bit phase (bit (index_of n j) k)) (amp_at l k)
        | GH j => hadamard_amp (index_of n j) (amp_at l) k
        end.
Proof.
  intros Hd Hg n. pose proof Hd as [Hn [l [El Hl]]]. fold n in Hl.
  pose proof (dense_keys_sized n l Hl) as Hs.
  pose proof (valid_gate_accepted _ _ Hg) as Ha.
  exists l, (gate_entries n g l).
  split; [rewrite El; apply force_of_list|]. split.
  { rewrite (apply_gate_entries st g l El Hs Ha). apply force_of_list. }
  assert (Z.of_nat n = n_qubits st) as En by (unfold n; lia).
  intros k Hk.
  destruct g as [j|j t|j|j|j]; cbn [gate_entries valid_gate] in *.
  - destruct (index_of_accepts n j) as [_ Hi]; [lia|].
    apply (amp_at_map_keys n (negate (index_of n j))); auto.
    intros b Hb. split; [now rewrite length_negate|].
    apply negate_negate. lia.
  - destruct Hg as [Hj [Ht Hne]].
    destruct (index_of_accepts n j) as [_ Hi]; [lia|].
    destruct (index_of_accepts n t) as [_ Hi']; [lia|].
    assert (index_of n j <> index_of n t) as Hd'
      by (rewrite !index_of_in_range by lia; lia).
    apply (amp_at_map_keys n
      (fun b => if bit (index_of n j) b then negate (index_of n t) b else b));
      auto.
    intros b Hb. destruct (bit (index_of n j) b) eqn:Eb.
    + split; [now rewrite length_negate|].
      rewrite bit_negate_other, Eb by auto. apply negate_negate. lia.
    + split; [assumption|]. now rewrite Eb.
  - apply (amp_at_map_scale
             (fun b => pow_bit imag (bit (index_of n j) b))).
  - apply (amp_at_map_scale
             (fun b => pow_bit phase (bit (index_of n j) b))).
  - destruct (index_of_accepts n j) as [_ Hi]; [lia|].
    now apply amp_at_h.
Qed.

(** X6: [cx] changes no amplitude when every basis state with the
    control bit set has amplitude zero. *)
Theorem cx_without_control_amplitude (st : State C) (j t : Z) :
  dense_state st -> valid_gate (n_qubits st) (GCX j t) ->
  let n := Z.to_nat (n_qubits st) in
  exists l l',
    force (state st) = Ok l /\
    force (state (cx j t st)) = Ok l' /\
    ((forall k, length k = n -> bit (index_of n j) k = true ->
        amp_at l k = zero) ->
     forall k, length k = n -> amp_at l' k = amp_at l k).
Proof.
  intros Hd Hg n.
  destruct (gate_amplitudes st (GCX j t) Hd Hg) as [l [l' [El [El' Ha]]]].
  exists l, l'. split; [exact El|]. split; [exact El'|].
  intros Hz k Hk. fold n in Ha. rewrite (Ha k Hk).
  destruct (bit (index_of n j) k) eqn:Eb; [|reflexivity].
  destruct Hg as [Hj [Ht Hne]]. destruct Hd as [Hn _].
  assert (index_of n j <> index_of n t) as Hd'
    by (rewrite !index_of_in_range by lia; lia).
  rewrite (Hz k Hk Eb). apply Hz.
  - now rewrite length_negate.
  - now rewrite bit_negate_other, Eb by auto.
Qed.

End GateAmplitudes.

Lemma gate_amplitudes_witness :
  exists st,
    construct (C := RC) 2 0 = Ok st /\
    let n := Z.to_nat (n_qubits st) in
    exists l l',
      force (state st) = Ok l /\
      force (state (apply_gate (GH 0) st)) = Ok l' /\
      forall k, length k = n ->
        amp_at l' k = hadamard_amp (index_of n 0) (amp_at l) k.
Proof.
  destruct (construct_ok (C := RC) 2 0) as [st [E [En _]]]; try lia.
  exists st. split; [exact E|].
  apply (gate_amplitudes st (GH 0)).
  - now apply (construct_dense 2 0).
  - rewrite En. cbn. lia.
Defined.

Lemma cx_without_control_amplitude_witness :
  exists st,
    construct (C := RC) 2 0 = Ok st /\
    let n := Z.to_nat (n_qubits st) in
    exists l l',
      force (state st) = Ok l /\
      force (state (cx 0 1 st)) = Ok l' /\
      ((forall k, length k = n -> bit (index_of n 0) k = true ->
          amp_at l k = zero) ->
       forall k, length k = n -> amp_at l' k = amp_at l k).
Proof.
  destruct (construct_ok (C := RC) 2 0) as [st [E [En _]]]; try lia.
  exists st. split; [exact E|].
  apply (cx_without_control_amplitude st 0 1).
  - now apply (construct_dense 2 0).
  - rewrite En. cbn. lia.
Defined.


(** ** Errors stay *)

Lemma smap_keeps_raise {T U} (f : T -> result U) (q : Seq T) :
  is_raise (force q) -> is_raise (force (smap f q)).
Proof.
  induction q as [|a q IH|e]; cbn [force smap]; intros [e' He].
  - discriminate.
  - destruct (force q) as [l|e0] eqn:E; cbn [rbind] in He; [discriminate|].
    destruct (f a) as [y|e1]; cbn [force]; [|now exists e1].
    destruct IH as [e2 He2]; [now exists e0|]. rewrite He2. now exists e2.
  - now exists e.
Qed.

(** X8: once the amplitude map of a state raises when it is evaluated,
    it does so after every further gate call: no gate call repairs it. *)
Theorem gate_keeps_error {C} {num : Num C} (st : State C) (g : gate) :
  is_raise (force (state st)) ->
  is_raise (force (state (apply_gate g st))).
Proof.
  intros Hr. destruct g as [j|j k|j|j|j]; cbn [apply_gate];
    unfold x, cx, s, t, h; cbn [state with_state].
  - now apply smap_keeps_raise.
  - now apply smap_keeps_raise.
  - now apply smap_keeps_raise.
  - now apply smap_keeps_raise.
  - apply force_reduce_by_key_raise, force_flatten_raise.
    now apply smap_keeps_raise.
Qed.

Lemma gate_keeps_error_witness :
  exists st,
    construct (C := RC) 1 0 = Ok st /\
    is_raise (force (state (x 5 st))) /\
    is_raise (force (state (apply_gate (GH 0) (x 5 st)))).
Proof.
  eexists. split; [reflexivity|].
  assert (is_raise (force (state (x 5
            {| n_qubits := 1; n_bits := 0;
               state := of_list (initial_entries (C := RC) (Z.to_nat 1));
               cbits := repeat 0%Z (Z.to_nat 0);
               measurement_qubits := []; measure_all_flag := false |}))))
    as Hr by (eexists; reflexivity).
  split; [exact Hr|].
  exact (gate_keeps_error _ (GH 0) Hr).
Defined.

(** ** Merging by key *)

Section Merge.
Context {C : Type} {num : Num C}.

Lemma rbk_insert_new (f : C -> C -> C) (acc : list (entry C))
    (k : bitarray) (v : C) :
  ~ In k (keys acc) -> rbk_insert f acc k v = acc ++ [(k, v)].
Proof.
  induction acc as [|[k' v'] acc IH]; cbn [rbk_insert app]; [reflexivity|].
  intros Hin. destruct (bitarray_eq_dec k' k) as [->|Hne].
  - exfalso. apply Hin. unfold keys. cbn. now left.
  - f_equal. apply IH. intros H. apply Hin. unfold keys in *. cbn. now right.
Qed.

Lemma rbk_fold_distinct (f : C -> C -> C) (l acc : list (entry C)) :
  NoDup (keys (acc ++ l)) ->
  fold_left (fun acc kv => rbk_insert f acc (fst kv) (snd kv)) l acc
  = acc ++ l.
Proof.
  revert acc; induction l as [|[k v] l IH]; intros acc Hn;
    cbn [fold_left fst snd].
  - now rewrite app_nil_r.
  - rewrite rbk_insert_new.
    + rewrite IH; rewrite <- app_assoc; [reflexivity | exact Hn].
    + unfold keys in Hn. rewrite map_app in Hn. cbn [map fst] in Hn.
      apply NoDup_remove_2 in Hn. intros H. apply Hn.
      apply in_or_app. now left.
Qed.

(** X9: [reduce_by_key] returns one entry for every key of its input
    and no key twice, and it returns a list whose keys are already
    distinct as it is. *)
Theorem reduce_by_key_distinct (f : C -> C -> C) (l : list (entry C)) :
  NoDup (keys (reduce_by_key_impl f l)) /\
  (forall b, In b (keys (reduce_by_key_impl f l)) <-> In b (keys l)) /\
  (NoDup (keys l) -> reduce_by_key_impl f l = l).
Proof.
  destruct (keys_reduce_by_key f l) as [Hn Hk].
  split; [exact Hn|]. split; [exact Hk|].
  intros Hd. unfold reduce_by_key_impl. now rewrite rbk_fold_distinct.
Qed.
End Merge.

(** ** Marking qubits *)

Lemma in_set_add (j q : Z) (l : list Z) :
  In q (set_add j l) <-> q = j \/ In q l.
Proof.
  induction l as [|i l IH]; cbn [set_add].
  - cbn. intuition.
  - destruct (Z.eqb_spec i j) as [->|Hne]; cbn [In].
    + intuition.
    + rewrite IH. intuition.
Qed.

Lemma NoDup_set_add (j : Z) (l : list Z) : NoDup l -> NoDup (set_add j l).
Proof.
  induction 1 as [|i l Hi Hl IH]; cbn [set_add].
  - constructor; [intros []|constructor].
  - destruct (Z.eqb_spec i j) as [->|Hne].
    + now constructor.
    + constructor; [|exact IH]. rewrite in_set_add. intros [->|H]; auto.
Qed.

Lemma set_add_twice (j : Z) (l : list Z) :
  set_add j (set_add j l) = set_add j l.
Proof.
  induction l as [|i l IH]; cbn [set_add].
  - now rewrite Z.eqb_refl.
  - destruct (Z.eqb_spec i j) as [->|Hne]; cbn [set_add].
    + now rewrite Z.eqb_refl.
    + destruct (Z.eqb_spec i j); [contradiction|]. now rewrite IH.
Qed.

(** X10: [measure(j, cbit)] marks [j] and nothing else, whatever [j]
    and [cbit] are: afterwards the marked qubits are [j] and those marked
    before, the amplitude map and the register are untouched, the
    [cbit] argument makes no difference, and marking [j] again changes
    nothing. *)
Theorem measure_marks {C} {num : Num C} (st : State C) (j : Z)
    (cbit cbit' : option Z) :
  (forall q, In q (measurement_qubits (measure j cbit st))
             <-> q = j \/ In q (measurement_qubits st)) /\
  state (measure j cbit st) = state st /\
  cbits (measure j cbit st) = cbits st /\
  measure j cbit st = measure j cbit' st /\
  measure j cbit' (measure j cbit st) = measure j cbit st.
Proof.
  split; [intros q; apply in_set_add|]. split; [reflexivity|].
  split; [reflexivity|]. split; [reflexivity|].
  unfold measure. cbn. now rewrite set_add_twice.
Qed.

Lemma apply_calls_cons {C} {num : Num C} (c : call) (cs : list call)
    (st : State C) :
  apply_calls (c :: cs) st = apply_calls cs (apply_call c st).
Proof. reflexivity. Qed.

Lemma apply_gate_frame {C} {num : Num C} (g : gate) (st : State C) :
  n_qubits (apply_gate g st) = n_qubits st /\
  n_bits (apply_gate g st) = n_bits st /\
  cbits (apply_gate g st) = cbits st /\
  measurement_qubits (apply_gate g st) = measurement_qubits st /\
  measure_all_flag (apply_gate g st) = measure_all_flag st.
Proof. destruct g; cbn; auto. Qed.

Lemma apply_calls_plan {C} {num : Num C} (cs : list call) (st : State C) :
  n_qubits (apply_calls cs st) = n_qubits st /\
  n_bits (apply_calls cs st) = n_bits st /\
  cbits (apply_calls cs st) = cbits st /\
  (NoDup (measurement_qubits st) ->
   NoDup (measurement_qubits (apply_calls cs st))) /\
  (forall q, In q (measurement_qubits (apply_calls cs st))
             <-> In q (measurement_qubits st)
                 \/ exists cbit, In (CallMeasure q cbit) cs) /\
  (measure_all_flag (apply_calls cs st) = true
   <-> measure_all_flag st = true \/ In CallMeasureAll cs).
Proof.
  revert st; induction cs as [|c cs IH]; intros st.
  - cbn. repeat split; auto.
    + intros [H|[cb []]]. exact H.
    + intros [H|[]]. exact H.
  - rewrite apply_calls_cons.
    destruct (IH (apply_call c st)) as [I1 [I2 [I3 [I4 [I5 I6]]]]].
    destruct c as [g|j cb|]; cbn [apply_call] in *.
    + destruct (apply_gate_frame g st) as [G1 [G2 [G3 [G4 G5]]]].
      rewrite G1 in I1. rewrite G2 in I2. rewrite G3 in I3.
      rewrite G4 in I4. rewrite G5 in I6.
      split; [exact I1|]. split; [exact I2|]. split; [exact I3|].
      split; [exact I4|]. split.
      * intros q. rewrite (I5 q), G4. split.
        -- intros [H|[cb H]]; auto. right. exists cb. now right.
        -- intros [H|[cb [H|H]]]; auto; [discriminate|].
           right. now exists cb.
      * rewrite I6. split.
        -- intros [H|H]; auto. right. now right.
        -- intros [H|[H|H]]; auto. discriminate.
    + cbn [measure n_qubits n_bits cbits measurement_qubits
             measure_all_flag] in *.
      split; [exact I1|]. split; [exact I2|]. split; [exact I3|].
      split; [intros H; apply I4; now apply NoDup_set_add|]. split.
      * intros q. rewrite (I5 q), in_set_add. split.
        -- intros [[->|H]|[cb' H]]; auto.
           ++ right. exists cb. now left.
           ++ right. exists cb'. now right.
        -- intros [H|[cb' [H|H]]]; auto.
           ++ inversion H; subst. auto.
           ++ right. now exists cb'.
      * rewrite I6. split.
        -- intros [H|H]; auto. right. now right.
        -- intros [H|[H|H]]; auto. discriminate.
    + cbn [measure_all n_qubits n_bits cbits measurement_qubits
             measure_all_flag] in *.
      split; [exact I1|]. split; [exact I2|]. split; [exact I3|].
      split; [exact I4|]. split.
      * intros q. rewrite (I5 q). split.
        -- intros [H|[cb H]]; auto. right. exists cb. now right.
        -- intros [H|[cb [H|H]]]; auto; [discriminate|].
           right. now exists cb.
      * rewrite I6. split.
        -- intros _. right. now left.
        -- intros _. now left.
Qed.

(** X11: after any sequence of gate calls and marking calls on a fresh
    state, the dimensions are those it was constructed with, the
    classical register still holds [n_bits] zeros (no call writes it),
    the marked qubits are exactly those passed to [measure], none
    twice, and the all-flag is set exactly when [measure_all] was
    called. *)
Theorem calls_keep_register {C} {num : Num C} (nq nb : Z) (cs : list call)
    (st : State C) :
  construct nq nb = Ok st ->
  n_qubits (apply_calls cs st) = nq /\
  n_bits (apply_calls cs st) = nb /\
  cbits (apply_calls cs st) = repeat 0%Z (Z.to_nat nb) /\
  NoDup (measurement_qubits (apply_calls cs st)) /\
  (forall q, In q (measurement_qubits (apply_calls cs st))
             <-> exists cbit, In (CallMeasure q cbit) cs) /\
  (measure_all_flag (apply_calls cs st) = true <-> In CallMeasureAll cs).
Proof.
  intros E. unfold construct in E.
  destruct ((0 <? nq)%Z && (0 <=? nb)%Z); [|discriminate].
  inversion E; subst; clear E.
  destruct (apply_calls_plan cs
    {| n_qubits := nq; n_bits := nb;
       state := of_list (initial_entries (Z.to_nat nq));
       cbits := repeat 0%Z (Z.to_nat nb);
       measurement_qubits := []; measure_all_flag := false |})
    as [I1 [I2 [I3 [I4 [I5 I6]]]]].
  cbn [n_qubits n_bits cbits measurement_qubits measure_all_flag] in *.
  split; [exact I1|]. split; [exact I2|]. split; [exact I3|].
  split; [apply I4; constructor|]. split.
  - intros q. rewrite (I5 q). split.
    + intros [[]|H]. exact H.
    + intros H. now right.
  - rewrite I6. split.
    + intros [H|H]; [discriminate|exact H].
    + intros H. now right.
Qed.

Lemma calls_keep_register_witness :
  exists st,
    construct (C := RC) 2 3 = Ok st /\
    n_qubits (apply_calls
                [CallGate (GH 0); CallMeasure 1 (Some 0%Z);
                 CallMeasure 1 None; CallMeasureAll] st) = 2%Z /\
    cbits (apply_calls
             [CallGate (GH 0); CallMeasure 1 (Some 0%Z);
              CallMeasure 1 None; CallMeasureAll] st)
    = repeat 0%Z (Z.to_nat 3) /\
    NoDup (measurement_qubits
             (apply_calls
                [CallGate (GH 0); CallMeasure 1 (Some 0%Z);
                 CallMeasure 1 None; CallMeasureAll] st)).
Proof.
  destruct (construct_ok (C := RC) 2 3) as [st [E _]]; try lia.
  exists st. split; [exact E|].
  destruct (calls_keep_register 2 3
              [CallGate (GH 0); CallMeasure 1 (Some 0%Z);
               CallMeasure 1 None; CallMeasureAll] st E)
    as [H1 [_ [H3 [H4 _]]]].
  auto.
Defined.

(** ** Copies *)

Lemma copy_spec {C} {num : Num C} (w : World (C := C)) (self : nat) :
  (0 < n_qubits (cells w self))%Z -> (0 <= n_bits (cells w self))%Z ->
  exists w',
    copy self w = (Ok (next w), w') /\
    cells w' (next w) = cells w self /\
    (forall p, p <> next w -> cells w' p = cells w p) /\
    next w' = S (next w) /\ draws w' = draws w /\ rng w' = rng w.
Proof.
  intros Hq Hb. unfold copy, bind, deref, lift, alloc, assign, ret.
  cbn [fst snd cells next].
  destruct (construct_ok (C := C) _ _ Hq Hb) as [new [E [En [Eb _]]]].
  rewrite E. eexists. split; [reflexivity|].
  cbn [cells next draws rng]. rewrite Nat.eqb_refl. split.
  - rewrite En, Eb. now destruct (cells w self).
  - split; [|auto]. intros p Hp.
    destruct (Nat.eqb_spec p (next w)); [contradiction|reflexivity].
Qed.

(** X12: [copy()] of a state with constructed dimensions returns a new
    object that equals the original field by field; no other object
    changes and no random number is drawn. *)
Theorem copy_makes_equal_object {C} {num : Num C} (w : World (C := C))
    (self : nat) :
  (0 < n_qubits (cells w self))%Z -> (0 <= n_bits (cells w self))%Z ->
  exists w',
    copy self w = (Ok (next w), w') /\
    cells w' (next w) = cells w self /\
    (forall p, p <> next w -> cells w' p = cells w p) /\
    next w' = S (next w) /\ draws w' = draws w /\ rng w' = rng w.
Proof. apply copy_spec. Qed.

Lemma copy_makes_equal_object_witness :
  exists st,
    construct (C := RC) 2 1 = Ok st /\
    let w := {| cells := fun _ => measure 0 None (h 0 st); next := 1;
                rng := fun _ => (1 / 2, 0)%R; draws := 0 |} in
    exists w',
      copy 0 w = (Ok (next w), w') /\
      cells w' (next w) = cells w 0 /\
      (forall p, p <> next w -> cells w' p = cells w p) /\
      next w' = S (next w) /\ draws w' = draws w /\ rng w' = rng w.
Proof.
  eexists. split; [reflexivity|].
  apply (copy_makes_equal_object
           {| cells := fun _ => measure 0 None (h 0 _); next := 1;
              rng := fun _ => (1 / 2, 0)%R; draws := 0 |} 0); cbn; lia.
Defined.

(** ** What a shot records *)

Lemma map_update {A B} (f : A -> B) (l : list A) (k : nat) (v : A) :
  map f (update l k v) = update (map f l) k (f v).
Proof.
  revert k; induction l as [|a l IH]; intros [|k]; cbn; auto.
  now rewrite IH.
Qed.

Lemma concat_str_of_bit (bs : list bool) :
  String.concat "" (map str_of_bit bs) = to01 bs.
Proof.
  induction bs as [|b bs IH]; [reflexivity|].
  destruct bs as [|b' bs].
  - now destruct b.
  - change (String.concat "" (map str_of_bit (b :: b' :: bs)))
      with (str_of_bit b ++ "" ++ String.concat "" (map str_of_bit (b' :: bs)))%string.
    rewrite IH. now destruct b.
Qed.

Lemma length_to01 (bs : list bool) : String.length (to01 bs) = length bs.
Proof. induction bs as [|b bs IH]; cbn; [reflexivity|]. now rewrite IH. Qed.


Section ShotAccounts.
Context {C : Type} {num : Num C} {ord : OrderedNum C}.



End ShotAccounts.

(** ** The counts *)






Lemma insert_sorted_permutation {A} (le : A -> A -> bool) (a : A)
    (l : list A) :
  Permutation (insert_sorted le a l) (a :: l).
Proof.
  induction l as [|b l IH]; cbn [insert_sorted]; [reflexivity|].
  destruct (le a b); [reflexivity|].
  rewrite IH. apply perm_swap.
Qed.

Lemma sorted_permutation {A} (le : A -> A -> bool) (l : list A) :
  Permutation (sorted le l) l.
Proof.
  induction l as [|a l IH]; cbn; [reflexivity|].
  fold (sorted le l). rewrite insert_sorted_permutation. now constructor.
Qed.


Lemma insert_sorted_sorted {A} (le : A -> A -> bool) (a : A) (l : list A) :
  (forall x y, le x y = false -> le y x = true) ->
  Sorted (fun x y => le x y = true) l ->
  Sorted (fun x y => le x y = true) (insert_sorted le a l).
Proof.
  intros Htot Hs. induction Hs as [|b l Hs IH Hd]; cbn [insert_sorted].
  - constructor; constructor.
  - destruct (le a b) eqn:E.
    + constructor; [now constructor|]. now constructor.
    + constructor; [exact IH|].
      destruct l as [|c l]; cbn [insert_sorted].
      * constructor. now apply Htot.
      * destruct (le a c); constructor; [now apply Htot|].
        now inversion Hd.
Qed.

Lemma sorted_sorted {A} (le : A -> A -> bool) (l : list A) :
  (forall x y, le x y = false -> le y x = true) ->
  Sorted (fun x y => le x y = true) (sorted le l).
Proof.
  intros Htot. induction l as [|a l IH]; cbn; [constructor|].
  fold (sorted le l). now apply insert_sorted_sorted.
Qed.



Section RunAccounts.
Context {C : Type} {num : Num C} {ord : OrderedNum C}.


Lemma length_scheduled_qubits (st : State C) :
  length (scheduled_qubits st)
  = if measure_all_flag st then Z.to_nat (n_qubits st)
    else length (measurement_qubits st).
Proof.
  unfold scheduled_qubits. destruct (measure_all_flag st).
  - now rewrite length_map, length_seq.
  - apply Permutation_length, sorted_permutation.
Qed.

Lemma scheduled_qubits_accepted (st : State C) :
  (measure_all_flag st = false ->
   forall q, In q (measurement_qubits st) ->
             (- n_qubits st <= q < n_qubits st)%Z) ->
  forall q, In q (scheduled_qubits st) ->
            (- n_qubits st <= q < n_qubits st)%Z.
Proof.
  intros Hm q Hin. unfold scheduled_qubits in Hin.
  destruct (measure_all_flag st).
  - apply in_map_iff in Hin. destruct Hin as [i [<- Hi]].
    apply in_seq in Hi. lia.
  - apply Hm; [reflexivity|]. now apply in_sorted in Hin.
Qed.





End RunAccounts.






(** ** When a shot fails *)

Lemma repeat_str_of_bit (n : nat) :
  map str_of_bit (repeat false n) = repeat "0"%string n.
Proof. induction n as [|k IH]; cbn; [reflexivity|]. now rewrite IH. Qed.


Section ShotFails.
Context {C : Type} {num : Num C} {ord : OrderedNum C}.






Lemma scheduled_qubits_nonempty (st : State C) :
  (0 < n_qubits st)%Z ->
  (measurement_qubits st <> [] \/ measure_all_flag st = true) ->
  scheduled_qubits st <> [].
Proof.
  intros Hq Hsched E. apply (f_equal (@length Z)) in E.
  rewrite length_scheduled_qubits in E. cbn [length] in E.
  destruct (measure_all_flag st).
  - lia.
  - destruct Hsched as [H|H]; [|discriminate].
    destruct (measurement_qubits st); [congruence|discriminate].
Qed.

(** X19: if evaluating the amplitude map of the prepared state raises
    (an earlier gate call had a bad index), every [run] that passes the
    two argument checks raises that same exception in its first shot. *)
Theorem run_surfaces_map_error (w : World (C := C)) (ref : nat) (shots : Z)
    (e : exn) :
  ref < next w ->
  (0 < n_qubits (cells w ref))%Z -> (0 <= n_bits (cells w ref))%Z ->
  force (state (cells w ref)) = Raise e ->
  (0 < shots)%Z ->
  (measurement_qubits (cells w ref) <> [] \/
   measure_all_flag (cells w ref) = true) ->
  fst (run ref shots w) = Raise e.
Proof.
  intros Hs Hq Hb He Hsh Hsched.
  destruct (copy_spec w ref Hq Hb) as [w1 [E1 [Ec1 [Eo1 _]]]].
  set (st := cells w ref) in *.
  pose proof (scheduled_qubits_nonempty st Hq Hsched) as Hne.
  unfold run. destruct (Z.leb_spec shots 0) as [Hle|_]; [lia|].
  unfold bind at 1. unfold deref at 1. cbn [fst snd]. fold st.
  destruct (match measurement_qubits st with [] => true | _ => false end
            && negb (measure_all_flag st)) eqn:Eg.
  { exfalso. apply andb_true_iff in Eg. destruct Eg as [Em Ef].
    destruct Hsched as [Hx|Hx].
    - now destruct (measurement_qubits st).
    - rewrite Hx in Ef. discriminate. }
  unfold bind at 1. unfold deref at 1. cbn [fst snd]. fold st.
  unfold scheduled_qubits in Hne.
  destruct (if measure_all_flag st
            then map Z.of_nat (seq 0 (Z.to_nat (n_qubits st)))
            else sorted Z.leb (measurement_qubits st)) as [|q0 qs];
    [congruence|].
  destruct (Z.to_nat shots) as [|k] eqn:Ek; [lia|].
  cbn [shots_loop]. unfold bind at 1. unfold bind at 1. unfold shot.
  unfold bind at 1. rewrite E1. unfold bind at 1. unfold deref at 1.
  cbn [fst snd]. unfold bind at 1. cbn [measure_qubits].
  unfold bind at 1. unfold measure_qubit. unfold bind at 1.
  unfold deref at 1. cbn [fst snd]. unfold bind at 1. unfold lift at 1.
  rewrite Ec1. fold st. rewrite He. reflexivity.
Qed.
End ShotFails.

(** ** What a measurement leaves *)

Section Collapses.
Context {C : Type} {num : Num C} {ord : OrderedNum C}.


End Collapses.

(** ** Reading the probabilities and printing *)



Lemma sorted_of_sorted {A} (le : A -> A -> bool) (l : list A) :
  Sorted (fun x y => le x y = true) l -> sorted le l = l.
Proof.
  induction 1 as [|a l Hs IH Hd]; [reflexivity|].
  cbn. fold (sorted le l). rewrite IH.
  destruct Hd as [|b l Hab]; cbn [insert_sorted]; [reflexivity|].
  now rewrite Hab.
Qed.

Section Readers.
Context {C : Type} {num : Num C}.
Variable tiny : C.
Variable absolute : C -> C.
Variable format_3f : C -> string.



Lemma key_leb_total (a b : entry C) :
  key_leb a b = false -> key_leb b a = true.
Proof.
  unfold key_leb. intros E.
  destruct (String.leb_total (to01 (fst a)) (to01 (fst b))); congruence.
Qed.

(** X22: [__str__] changes the object it prints: afterwards the map is
    the stable sort of the map before by basis state, with the same
    entries and every other field as before; printing again gives the
    same text and changes nothing more. *)
Theorem str_sorts_the_map (st : State C) (l : list (entry C)) :
  state st = of_list l ->
  exists l',
    snd (state_str tiny absolute format_3f st) = with_state st (of_list l') /\
    Permutation l l' /\
    Sorted (fun a b => key_leb a b = true) l' /\
    state_str tiny absolute format_3f
      (snd (state_str tiny absolute format_3f st))
    = state_str tiny absolute format_3f st.
Proof.
  intros El. exists (sorted key_leb l).
  assert (Sorted (fun a b => key_leb a b = true) (sorted key_leb l)) as Hs
    by (apply sorted_sorted; apply key_leb_total).
  assert (forall st', state st' = of_list l ->
            seq_sorted key_leb (state st') = of_list (sorted key_leb l))
    as Eq1.
  { intros st' E. unfold seq_sorted. now rewrite E, force_of_list. }
  split.
  { unfold state_str. cbn [snd]. now rewrite (Eq1 st El). }
  split; [symmetry; apply sorted_permutation|].
  split; [exact Hs|].
  unfold state_str. cbn [snd state with_state n_bits cbits].
  rewrite (Eq1 st El). cbn [state with_state].
  unfold seq_sorted. rewrite force_of_list.
  rewrite (sorted_of_sorted key_leb _ Hs). rewrite force_of_list.
  reflexivity.
Qed.
End Readers.

(** ** The properties at concrete states *)




Lemma run_surfaces_map_error_witness :
  exists st e,
    construct (C := RC) 1 0 = Ok st /\
    force (state (x 5 st)) = Raise e /\
    fst (run 0 3
           {| cells := fun _ => measure_all (x 5 st); next := 1;
              rng := fun _ => (1 / 2, 0)%R; draws := 0 |})
    = Raise e.
Proof.
  eexists. eexists. split; [reflexivity|].
  assert (force (state (x 5
            {| n_qubits := 1; n_bits := 0;
               state := of_list (initial_entries (C := RC) (Z.to_nat 1));
               cbits := repeat 0%Z (Z.to_nat 0);
               measurement_qubits := []; measure_all_flag := false |}))
          = Raise (ValueError "bitarrays of equal length expected"))
    as He by reflexivity.
  split; [exact He|].
  apply (run_surfaces_map_error
           {| cells := fun _ => measure_all (x 5 _); next := 1;
              rng := fun _ => (1 / 2, 0)%R; draws := 0 |} 0 3);
    cbn [cells next n_qubits n_bits measure_all x with_state]; try lia.
  - exact He.
  - right. reflexivity.
Defined.



Lemma str_sorts_the_map_witness :
  exists st,
    construct (C := RC) 2 0 = Ok st /\
    exists l',
      snd (state_str (/ 10000000000, 0)%R sqrt (fun _ => EmptyString)
             (x 0 st))
      = with_state (x 0 st) (of_list l') /\
      Permutation
        (gate_entries 2 (GX 0) (initial_entries (C := RC) 2)) l' /\
      Sorted (fun a b => key_leb a b = true) l' /\
      state_str (/ 10000000000, 0)%R sqrt (fun _ => EmptyString)
        (snd (state_str (/ 10000000000, 0)%R sqrt (fun _ => EmptyString)
                (x 0 st)))
      = state_str (/ 10000000000, 0)%R sqrt (fun _ => EmptyString)
          (x 0 st).
Proof.
  destruct (construct_ok (C := RC) 2 0) as [st [E [En [_ [Es _]]]]];
    try lia.
  exists st. split; [exact E|].
  apply (str_sorts_the_map (/ 10000000000, 0)%R sqrt
           (fun _ => EmptyString) (x 0 st)
           (gate_entries 2 (GX 0) (initial_entries 2))).
  assert (x 0 st = with_state st
            (of_list (gate_entries (Z.to_nat (n_qubits st)) (GX 0)
                        (initial_entries (Z.to_nat 2))))) as Ex.
  { apply (apply_gate_sized st (GX 0) (initial_entries (Z.to_nat 2)) Es).
    - rewrite En. apply dense_keys_sized, dense_initial_entries.
    - rewrite En. cbn. lia. }
  rewrite Ex, En. reflexivity.
Defined.

(** ** Measuring a basis state *)

Lemma RC_leb_false (p r : RC) : (fst r < fst p)%R -> leb p r = false.
Proof.
  intros H. cbn. destruct (Rle_dec (fst p) (fst r)); [lra|reflexivity].
Qed.

Lemma RC_leb_true (p r : RC) : (fst p <= fst r)%R -> leb p r = true.
Proof.
  intros H. cbn. destruct (Rle_dec (fst p) (fst r)); [reflexivity|lra].
Qed.

Lemma RC_ltb_zero (p : RC) : (0 < fst p)%R -> ltb zero p = true.
Proof.
  intros H. cbn. destruct (Rlt_dec 0 (fst p)); [reflexivity|lra].
Qed.

Lemma RC_div_zero (d : RC) : @div RC _ (0, 0)%R d = (0, 0)%R.
Proof. cbn. unfold Rdiv. now rewrite Rmult_0_l. Qed.

Lemma RC_div_one (p : RC) :
  fst p = 1%R -> @div RC _ (1, 0)%R (sqrt p) = (1, 0)%R.
Proof. intros Hp. cbn. rewrite Hp, sqrt_1. f_equal; lra. Qed.

Lemma RC_add_nothing (acc : RC) :
  fst (@add RC _ acc (@abs2 RC _ (0, 0)%R)) = fst acc.
Proof. cbn. lra. Qed.

Lemma RC_add_one (acc : RC) :
  fst (@add RC _ acc (@abs2 RC _ (1, 0)%R)) = (fst acc + 1)%R.
Proof. cbn. lra. Qed.

Lemma zero_entries_cons (n : nat) (e : entry RC) (l : list (entry RC)) :
  zero_entries n (e :: l) ->
  (length (fst e) = n /\ snd e = (0, 0)%R) /\ zero_entries n l.
Proof.
  intros H. split; [apply H; now left|].
  intros e' He'. apply H. now right.
Qed.

Lemma prob_zero_app {C} {num : Num C} (q : Z) (l1 l2 : list (entry C))
    (acc : C) :
  prob_zero q (l1 ++ l2) acc
  = (p <- prob_zero q l1 acc ;; prob_zero q l2 p).
Proof.
  revert acc. induction l1 as [|[k a] l1 IH]; intros acc;
    cbn [app prob_zero rbind]; [reflexivity|].
  destruct (getitem k q); cbn [rbind]; [apply IH|reflexivity].
Qed.

Lemma prob_zero_zero_entries (n : nat) (q : Z) (r : list (entry RC)) :
  (- Z.of_nat n <= q < Z.of_nat n)%Z -> zero_entries n r ->
  forall acc, exists p, prob_zero q r acc = Ok p /\ fst p = fst acc.
Proof.
  intros Hq. induction r as [|[k a] r IH]; intros Hr acc; cbn [prob_zero].
  - now exists acc.
  - apply zero_entries_cons in Hr. destruct Hr as [[Hk Ha] Hr].
    cbn [fst snd] in Hk, Ha. subst a.
    rewrite (getitem_accepts n k q Hk Hq). cbn [rbind].
    specialize (IH Hr).
    match goal with
    | |- exists p, prob_zero _ _ ?a = _ /\ _ =>
        destruct (IH a) as [p [Ep Hp]]
    end.
    exists p. split; [exact Ep|]. rewrite Hp.
    destruct (negb (bit (index_of n q) k)); [apply RC_add_nothing|].
    reflexivity.
Qed.

Lemma prob_zero_basis (n : nat) (b : bitarray) (q : Z)
    (l : list (entry RC)) :
  basis_entries n b l -> (- Z.of_nat n <= q < Z.of_nat n)%Z ->
  exists p, prob_zero q l zero = Ok p /\
            fst p = (if bit (index_of n q) b then 0 else 1)%R.
Proof.
  intros [Hb [l1 [l2 [-> [H1 H2]]]]] Hq.
  rewrite prob_zero_app.
  destruct (prob_zero_zero_entries n q l1 Hq H1 zero) as [p1 [E1 Hp1]].
  rewrite E1. cbn [rbind prob_zero].
  rewrite (getitem_accepts n b q Hb Hq). cbn [rbind].
  match goal with
  | |- exists p, prob_zero _ _ ?a = _ /\ _ =>
      destruct (prob_zero_zero_entries n q l2 Hq H2 a) as [p [Ep Hp]]
  end.
  exists p. split; [exact Ep|]. rewrite Hp.
  change (fst (@zero RC _)) with 0%R in Hp1.
  destruct (bit (index_of n q) b); cbn [negb]; [exact Hp1|].
  rewrite RC_add_one. lra.
Qed.

Lemma collapse_zero_entries (n : nat) (q : Z) (outcome : bool) (p : RC)
    (r : list (entry RC)) :
  (- Z.of_nat n <= q < Z.of_nat n)%Z -> ltb zero p = true ->
  zero_entries n r ->
  exists r', collapse q outcome p r = Ok r' /\ zero_entries n r'.
Proof.
  intros Hq Hp. induction r as [|[k a] r IH]; intros Hr; cbn [collapse].
  - exists []. split; [reflexivity|]. intros e [].
  - apply zero_entries_cons in Hr. destruct Hr as [[Hk Ha] Hr].
    cbn [fst snd] in Hk, Ha. subst a.
    destruct (IH Hr) as [r' [Er Hr']].
    rewrite (getitem_accepts n k q Hk Hq). cbn [rbind]. rewrite Hp, Er.
    destruct (if outcome then bit (index_of n q) k
              else negb (bit (index_of n q) k)); cbn [andb].
    + unfold py_sqrt. rewrite (lt_asym p Hp). cbn [rbind].
      unfold py_div. rewrite (sqrt_nonzero p Hp). cbn [rbind].
      eexists. split; [reflexivity|].
      intros e [<-|He]; [|now apply Hr']. cbn [fst snd].
      split; [exact Hk|apply RC_div_zero].
    + exists r'. auto.
Qed.

Lemma collapse_basis (n : nat) (b : bitarray) (q : Z) (p : RC)
    (l1 l2 : list (entry RC)) :
  length b = n -> (- Z.of_nat n <= q < Z.of_nat n)%Z -> fst p = 1%R ->
  zero_entries n l1 -> zero_entries n l2 ->
  exists l',
    collapse q (bit (index_of n q) b) p (l1 ++ (b, (1, 0)%R) :: l2) = Ok l'
    /\ basis_entries n b l'.
Proof.
  intros Hb Hq Hp1 H1 H2.
  assert (ltb zero p = true) as Hp by (apply RC_ltb_zero; lra).
  induction l1 as [|[k a] l1 IH]; cbn [app collapse].
  - destruct (collapse_zero_entries n q (bit (index_of n q) b) p l2 Hq Hp H2)
      as [r2 [E2 Hr2]].
    rewrite (getitem_accepts n b q Hb Hq). cbn [rbind]. rewrite Hp, E2.
    assert ((if bit (index_of n q) b then bit (index_of n q) b
             else negb (bit (index_of n q) b)) = true) as ->
      by now destruct (bit (index_of n q) b).
    cbn [andb]. unfold py_sqrt. rewrite (lt_asym p Hp). cbn [rbind].
    unfold py_div. rewrite (sqrt_nonzero p Hp). cbn [rbind].
    rewrite (RC_div_one p Hp1).
    eexists. split; [reflexivity|]. split; [exact Hb|].
    exists [], r2. split; [reflexivity|].
    split; [intros e []|exact Hr2].
  - apply zero_entries_cons in H1. destruct H1 as [[Hk Ha] H1].
    cbn [fst snd] in Hk, Ha; subst a.
    destruct (IH H1) as [l' [El' [_ [r1 [r2 [-> [Hr1 Hr2]]]]]]].
    rewrite (getitem_accepts n k q Hk Hq). cbn [rbind]. rewrite Hp, El'.
    destruct (if bit (index_of n q) b then bit (index_of n q) k
              else negb (bit (index_of n q) k)); cbn [andb].
    + unfold py_sqrt. rewrite (lt_asym p Hp). cbn [rbind].
      unfold py_div. rewrite (sqrt_nonzero p Hp). cbn [rbind].
      rewrite RC_div_zero.
      eexists. split; [reflexivity|]. split; [exact Hb|].
      exists ((k, (0, 0)%R) :: r1), r2. split; [reflexivity|].
      split; [|exact Hr2].
      intros e [<-|He]; [|now apply Hr1]. cbn [fst snd]. auto.
    + exists (r1 ++ (b, (1, 0)%R) :: r2). split; [reflexivity|].
      split; [exact Hb|]. exists r1, r2. auto.
Qed.

Lemma measure_qubit_basis (n : nat) (b : bitarray) (w : World (C := RC))
    (temp : nat) (bs : list bool) (q : Z) (l : list (entry RC)) :
  force (state (cells w temp)) = Ok l -> basis_entries n b l ->
  length bs = n -> (- Z.of_nat n <= q < Z.of_nat n)%Z ->
  (0 <= fst (rng w (draws w)) < 1)%R ->
  exists l' w',
    measure_qubit temp (map str_of_bit bs) q w
    = (Ok (map str_of_bit
             (update bs (index_of n q) (bit (index_of n q) b))), w') /\
    force (state (cells w' temp)) = Ok l' /\ basis_entries n b l' /\
    (forall p, p <> temp -> cells w' p = cells w p) /\
    next w' = next w /\ draws w' = S (draws w) /\ rng w' = rng w.
Proof.
  intros El Hl Hbs Hq Hr.
  destruct (prob_zero_basis n b q l Hl Hq) as [p [Ep Hp]].
  destruct (index_of_accepts n q Hq) as [Ei Hi].
  assert (leb p (rng w (draws w)) = bit (index_of n q) b) as Em.
  { destruct (bit (index_of n q) b);
      [apply RC_leb_true|apply RC_leb_false]; lra. }
  assert (exists l',
            (if negb (bit (index_of n q) b) then collapse q false p l
             else collapse q true (sub one p) l) = Ok l' /\
            basis_entries n b l') as [l' [Ec Hl']].
  { destruct Hl as [Hb [l1 [l2 [-> [H1 H2]]]]].
    destruct (bit (index_of n q) b) eqn:Eb; cbn [negb].
    - pose proof (collapse_basis n b q (sub one p) l1 l2 Hb Hq) as H.
      rewrite Eb in H. apply H; auto. cbn. lra.
    - pose proof (collapse_basis n b q p l1 l2 Hb Hq) as H.
      rewrite Eb in H. apply H; auto. }
  assert (setitem (map str_of_bit bs) q
            (str_of_bit (bit (index_of n q) b))
          = Ok (map str_of_bit
                  (update bs (index_of n q) (bit (index_of n q) b))))
    as Erb.
  { unfold setitem. rewrite length_map, Hbs, Ei. now rewrite map_update. }
  exists l'.
  unfold measure_qubit, bind, deref, lift, random, assign, ret.
  cbn [fst snd cells draws rng next].
  rewrite El, Ep. cbn [fst snd cells draws rng next].
  rewrite Em, Erb, Ec. eexists. split; [reflexivity|].
  cbn [cells next draws rng]. rewrite Nat.eqb_refl.
  cbn [state with_state]. rewrite force_of_list.
  split; [reflexivity|]. split; [exact Hl'|]. split; [|auto].
  intros p' Hp'. destruct (Nat.eqb_spec p' temp); [contradiction|].
  reflexivity.
Qed.

Lemma measure_qubits_basis (n : nat) (b : bitarray) (temp : nat)
    (qs : list Z) :
  (forall q, In q qs -> (- Z.of_nat n <= q < Z.of_nat n)%Z) ->
  forall (w : World (C := RC)) (bs : list bool) (l : list (entry RC)),
  force (state (cells w temp)) = Ok l -> basis_entries n b l ->
  length bs = n ->
  (forall k, (0 <= fst (rng w k) < 1)%R) ->
  exists w',
    measure_qubits temp (map str_of_bit bs) qs w
    = (Ok (map str_of_bit (written n b qs bs)), w') /\
    (forall p, p <> temp -> cells w' p = cells w p) /\
    next w' = next w /\ rng w' = rng w.
Proof.
  unfold written.
  induction qs as [|q qs IH]; intros Hq w bs l El Hl Hbs Hr;
    cbn [measure_qubits fold_left].
  - exists w. unfold ret. auto.
  - destruct (measure_qubit_basis n b w temp bs q l El Hl Hbs
                (Hq q (or_introl eq_refl)) (Hr _))
      as [l1 [w1 [E1 [El1 [Hl1 [F1 [N1 [_ R1]]]]]]]].
    unfold bind. rewrite E1.
    destruct (IH (fun q' H => Hq q' (or_intror H)) w1
                (update bs (index_of n q) (bit (index_of n q) b)) l1
                El1 Hl1) as [w2 [E2 [F2 [N2 R2]]]].
    { now rewrite length_update. }
    { intros k. rewrite R1. apply Hr. }
    exists w2. split; [exact E2|].
    split; [intros p Hp; rewrite F2, F1; auto|]. split; congruence.
Qed.

Lemma length_written (n : nat) (b : bitarray) (qs : list Z) :
  forall bs, length (written n b qs bs) = length bs.
Proof.
  unfold written. induction qs as [|q qs IH]; intros bs; cbn [fold_left];
    [reflexivity|]. now rewrite IH, length_update.
Qed.

Lemma nth_written (n : nat) (b : bitarray) (qs : list Z) :
  (forall q, In q qs -> (- Z.of_nat n <= q < Z.of_nat n)%Z) ->
  forall (bs : list bool) (i : nat),
  length bs = n ->
  nth i (written n b qs bs) false
  = if existsb (fun q => Nat.eqb (index_of n q) i) qs then bit i b
    else nth i bs false.
Proof.
  unfold written. induction qs as [|q qs IH]; intros Hq bs i Hbs;
    cbn [fold_left existsb]; [reflexivity|].
  rewrite (IH (fun q' H => Hq q' (or_intror H)))
    by now rewrite length_update.
  destruct (index_of_accepts n q (Hq q (or_introl eq_refl))) as [_ Hi].
  destruct (existsb (fun q0 => Nat.eqb (index_of n q0) i) qs);
    [now rewrite orb_true_r|]. rewrite orb_false_r.
  destruct (Nat.eqb_spec (index_of n q) i) as [<-|Hne].
  - apply nth_update_same. now rewrite Hbs.
  - now apply nth_update_other.
Qed.

Lemma written_all (n : nat) (b : bitarray) :
  length b = n ->
  written n b (map Z.of_nat (seq 0 n)) (repeat false n) = b.
Proof.
  intros Hb. apply (nth_ext _ _ false false).
  - now rewrite length_written, repeat_length.
  - intros i Hi. rewrite length_written, repeat_length in Hi.
    rewrite nth_written.
    + assert (existsb (fun q => Nat.eqb (index_of n q) i)
                (map Z.of_nat (seq 0 n)) = true) as ->; [|reflexivity].
      apply existsb_exists. exists (Z.of_nat i). split.
      * apply in_map, in_seq. lia.
      * unfold index_of. rewrite py_index_nonneg by lia.
        rewrite Nat2Z.id. apply Nat.eqb_refl.
    + intros q Hq. apply in_map_iff in Hq. destruct Hq as [j [<- Hj]].
      apply in_seq in Hj. lia.
    + apply repeat_length.
Qed.

Lemma getitems_reported (n : nat) (b : bitarray) (W : list bool)
    (qs : list Z) :
  length W = n ->
  (forall q, In q qs ->
     (- Z.of_nat n <= q < Z.of_nat n)%Z /\
     nth (index_of n q) W false = bit (index_of n q) b) ->
  getitems (map str_of_bit W) qs
  = Ok (map str_of_bit (map (fun q => bit (index_of n q) b) qs)).
Proof.
  intros HW. induction qs as [|q qs IH]; intros Hq; cbn [getitems map];
    [reflexivity|].
  destruct (Hq q (or_introl eq_refl)) as [Hr Hn].
  destruct (index_of_accepts n q Hr) as [Ei _].
  rewrite (getitem_some (map str_of_bit W) q (index_of n q)
             (str_of_bit false)) by now rewrite length_map, HW.
  cbn [rbind]. rewrite IH by (intros q' H; apply Hq; now right).
  cbn [rbind]. now rewrite map_nth, Hn.
Qed.

Lemma shot_basis (b : bitarray) (w : World (C := RC)) (ref : nat)
    (qs : list Z) (counts : list (string * Z)) (l : list (entry RC))
    (st : State RC) :
  cells w ref = st -> ref < next w ->
  (0 < n_qubits st)%Z -> (0 <= n_bits st)%Z ->
  force (state st) = Ok l ->
  basis_entries (Z.to_nat (n_qubits st)) b l ->
  (forall q, In q qs -> (- n_qubits st <= q < n_qubits st)%Z) ->
  (forall k, (0 <= fst (rng w k) < 1)%R) ->
  let n := Z.to_nat (n_qubits st) in
  let key :=
    to01 (if measure_all_flag st then written n b qs (repeat false n)
          else map (fun q => bit (index_of n q) b) qs) in
  exists w',
    shot ref qs counts w
    = (Ok (counts_set counts key (counts_get counts key 0 + 1)%Z), w') /\
    cells w' ref = st /\ ref < next w' /\ rng w' = rng w.
Proof.
  intros Hc Hs Hq Hb El Hl Hqs Hr n key.
  assert (Z.of_nat n = n_qubits st) as En by (unfold n; lia).
  destruct (copy_spec w ref) as [w1 [E1 [Ec1 [Eo1 [N1 [_ R1]]]]]];
    rewrite ?Hc; auto.
  rewrite Hc in Ec1.
  assert (forall q, In q qs -> (- Z.of_nat n <= q < Z.of_nat n)%Z) as Hqn
    by (intros q Hin; rewrite En; now apply Hqs).
  destruct (measure_qubits_basis n b (next w) qs Hqn w1 (repeat false n) l)
    as [w2 [E2 [F2 [N2 R2]]]].
  { now rewrite Ec1. }
  { exact Hl. }
  { apply repeat_length. }
  { intros k. rewrite R1. apply Hr. }
  rewrite repeat_str_of_bit in E2.
  assert (cells w1 ref = st) as Hc1 by (rewrite Eo1, Hc; [reflexivity|lia]).
  assert (cells w2 ref = st) as Hc2 by (rewrite F2, Hc1; [reflexivity|lia]).
  exists w2. split; [|split; [exact Hc2|split; [lia|congruence]]].
  unfold shot, bind. rewrite E1. unfold deref at 1. cbn [fst snd].
  rewrite Hc1. fold n. rewrite E2. unfold deref. cbn [fst snd].
  rewrite Hc2. unfold key. destruct (measure_all_flag st).
  - unfold ret. now rewrite concat_str_of_bit.
  - unfold lift, ret.
    rewrite (getitems_reported n b (written n b qs (repeat false n)) qs).
    + now rewrite concat_str_of_bit.
    + now rewrite length_written, repeat_length.
    + intros q Hin. split; [now apply Hqn|].
      rewrite nth_written; [|exact Hqn|apply repeat_length].
      assert (existsb (fun q0 => Nat.eqb (index_of n q0) (index_of n q)) qs
              = true) as ->; [|reflexivity].
      apply existsb_exists. exists q. split; [exact Hin|].
      apply Nat.eqb_refl.
Qed.

Lemma shots_loop_basis (b : bitarray) (ref : nat) (qs : list Z)
    (l : list (entry RC)) (st : State RC) (k : nat) :
  (0 < n_qubits st)%Z -> (0 <= n_bits st)%Z ->
  force (state st) = Ok l ->
  basis_entries (Z.to_nat (n_qubits st)) b l ->
  (forall q, In q qs -> (- n_qubits st <= q < n_qubits st)%Z) ->
  let n := Z.to_nat (n_qubits st) in
  let key :=
    to01 (if measure_all_flag st then written n b qs (repeat false n)
          else map (fun q => bit (index_of n q) b) qs) in
  forall (w : World (C := RC)) (counts : list (string * Z)),
  cells w ref = st -> ref < next w ->
  (forall k, (0 <= fst (rng w k) < 1)%R) ->
  exists w',
    shots_loop k ref qs counts w
    = (Ok (Nat.iter k
             (fun c => counts_set c key (counts_get c key 0 + 1)%Z) counts),
       w').
Proof.
  intros Hq Hb El Hl Hqs n key.
  induction k as [|k IH]; intros w counts Hc Hs Hr; cbn [shots_loop].
  - exists w. reflexivity.
  - destruct (shot_basis b w ref qs counts l st Hc Hs Hq Hb El Hl Hqs Hr)
      as [w1 [E1 [Hc1 [Hs1 R1]]]].
    unfold bind. fold n in E1. fold key in E1. rewrite E1.
    destruct (IH w1 (counts_set counts key (counts_get counts key 0 + 1)%Z)
                Hc1 Hs1) as [w2 E2].
    { intros j. rewrite R1. apply Hr. }
    exists w2. rewrite E2. now rewrite Nat.iter_succ_r.
Qed.

Lemma counts_of_one_outcome (key : string) (k : nat) :
  Nat.iter (S k)
    (fun c => counts_set c key (counts_get c key 0 + 1)%Z) []
  = [(key, Z.of_nat (S k))].
Proof.
  induction k as [|k IH]; [reflexivity|].
  rewrite Nat.iter_succ, IH. cbn [counts_set counts_get].
  rewrite String.eqb_refl. f_equal. f_equal. lia.
Qed.

(** X23: [run] on the map of a basis state, with [random.random()] in
    [0, 1): every shot gives the bits of that basis state at the
    measured qubits, so the result is that one outcome with count
    [shots]. *)
Theorem basis_state_measured (w : World (C := RC)) (ref : nat) (shots : Z)
    (b : bitarray) (l : list (entry RC)) :
  ref < next w ->
  (0 < n_qubits (cells w ref))%Z -> (0 <= n_bits (cells w ref))%Z ->
  force (state (cells w ref)) = Ok l ->
  basis_entries (Z.to_nat (n_qubits (cells w ref))) b l ->
  (measure_all_flag (cells w ref) = false ->
   forall q, In q (measurement_qubits (cells w ref)) ->
     (- n_qubits (cells w ref) <= q < n_qubits (cells w ref))%Z) ->
  (0 < shots)%Z ->
  (measurement_qubits (cells w ref) <> [] \/
   measure_all_flag (cells w ref) = true) ->
  (forall k, (0 <= fst (rng w k) < 1)%R) ->
  fst (run ref shots w) = Ok [(to01 (reported (cells w ref) b), shots)].
Proof.
  intros Hs Hq Hb El Hl Hm Hsh Hsched Hr.
  set (st := cells w ref) in *.
  destruct (Z.to_nat shots) as [|k] eqn:Ek; [lia|].
  destruct (shots_loop_basis b ref (scheduled_qubits st) l st (S k)
              Hq Hb El Hl (scheduled_qubits_accepted st Hm) w []
              eq_refl Hs Hr) as [w' E].
  rewrite counts_of_one_outcome in E.
  unfold run. destruct (Z.leb_spec shots 0) as [Hle|_]; [lia|].
  unfold bind at 1. unfold deref at 1. cbn [fst snd]. fold st.
  destruct (match measurement_qubits st with [] => true | _ => false end
            && negb (measure_all_flag st)) eqn:Eg.
  { exfalso. apply andb_true_iff in Eg. destruct Eg as [Em' Ef].
    destruct Hsched as [Hx|Hx].
    - now destruct (measurement_qubits st).
    - rewrite Hx in Ef. discriminate. }
  unfold bind at 1. unfold deref at 1. cbn [fst snd]. fold st.
  unfold bind. rewrite Ek. unfold scheduled_qubits in E at 1. rewrite E.
  unfold ret. cbn [fst sorted fold_right insert_sorted].
  f_equal. f_equal. f_equal; [|lia].
  f_equal. unfold reported, scheduled_qubits.
  destruct Hl as [Hlb _].
  destruct (measure_all_flag st); [|reflexivity].
  now apply written_all.
Qed.

(** ** Gates on a basis state *)

Lemma initial_entries_basis (n : nat) :
  basis_entries n (repeat false n) (initial_entries (C := RC) n).
Proof.
  split; [apply repeat_length|]. unfold initial_entries.
  destruct (2 ^ n) as [|m] eqn:Em;
    [exfalso; apply (Nat.pow_nonzero 2 n); lia|].
  exists [], (map (fun i => (bin_digits n i,
                             if Nat.eqb i 0 then one else zero))
                (seq 1 m)).
  split; [cbn [seq map app]; now rewrite bin_digits_zero|].
  split; [intros e []|].
  intros e He. apply in_map_iff in He. destruct He as [i [<- Hi]].
  apply in_seq in Hi. cbn [fst snd]. split; [apply length_bin_digits|].
  destruct (Nat.eqb_spec i 0); [lia|reflexivity].
Qed.

Lemma basis_entries_sized (n : nat) (b : bitarray) (l : list (entry RC)) :
  basis_entries n b l -> keys_sized n l.
Proof.
  intros [Hb [l1 [l2 [-> [H1 H2]]]]] k Hk. unfold keys in Hk.
  apply in_map_iff in Hk. destruct Hk as [e [<- He]].
  apply in_app_iff in He. destruct He as [He|[<-|He]].
  - now apply H1.
  - exact Hb.
  - now apply H2.
Qed.

Lemma basis_entries_map (n : nat) (b : bitarray) (f : bitarray -> bitarray)
    (l : list (entry RC)) :
  (forall k, length k = n -> length (f k) = n) ->
  basis_entries n b l ->
  basis_entries n (f b) (map (fun e => (f (fst e), snd e)) l).
Proof.
  intros Hf [Hb [l1 [l2 [-> [H1 H2]]]]]. split; [now apply Hf|].
  assert (forall r, zero_entries n r ->
            zero_entries n (map (fun e : entry RC => (f (fst e), snd e)) r))
    as Hz.
  { intros r Hr e He. apply in_map_iff in He. destruct He as [e' [<- He']].
    destruct (Hr e' He') as [Hk Ha]. cbn [fst snd]. auto. }
  exists (map (fun e => (f (fst e), snd e)) l1),
         (map (fun e => (f (fst e), snd e)) l2).
  split; [now rewrite map_app|]. split; now apply Hz.
Qed.

Lemma x_basis (st : State RC) (b : bitarray) (l : list (entry RC)) (j : Z) :
  state st = of_list l ->
  basis_entries (Z.to_nat (n_qubits st)) b l ->
  (0 <= j < n_qubits st)%Z ->
  exists l',
    state (x j st) = of_list l' /\
    basis_entries (Z.to_nat (n_qubits st)) (negate (Z.to_nat j) b) l'.
Proof.
  intros El Hl Hj. set (n := Z.to_nat (n_qubits st)) in *.
  exists (gate_entries n (GX j) l). split.
  - assert (x j st = with_state st (of_list (gate_entries n (GX j) l)))
      as -> by exact (apply_gate_sized st (GX j) l El
                        (basis_entries_sized n b l Hl) Hj).
    reflexivity.
  - cbn [gate_entries]. unfold index_of.
    rewrite py_index_nonneg by (unfold n; lia).
    apply (basis_entries_map n b (negate (Z.to_nat j)) l); [|exact Hl].
    intros k Hk. now rewrite length_negate.
Qed.

Lemma cx_basis (st : State RC) (b : bitarray) (l : list (entry RC))
    (j k : Z) :
  state st = of_list l ->
  basis_entries (Z.to_nat (n_qubits st)) b l ->
  (0 <= j < n_qubits st)%Z -> (0 <= k < n_qubits st)%Z ->
  exists l',
    state (cx j k st) = of_list l' /\
    basis_entries (Z.to_nat (n_qubits st))
      (if bit (Z.to_nat j) b then negate (Z.to_nat k) b else b) l'.
Proof.
  intros El Hl Hj Hk. set (n := Z.to_nat (n_qubits st)) in *.
  exists (gate_entries n (GCX j k) l). split.
  - assert (cx j k st
            = with_state st (of_list (gate_entries n (GCX j k) l))) as ->.
    { apply (apply_gate_sized st (GCX j k) l El
               (basis_entries_sized n b l Hl)). cbn. lia. }
    reflexivity.
  - cbn [gate_entries]. unfold index_of.
    rewrite !py_index_nonneg by (unfold n; lia).
    apply (basis_entries_map n b
             (fun c => if bit (Z.to_nat j) c then negate (Z.to_nat k) c
                       else c) l); [|exact Hl].
    intros c Hc. destruct (bit (Z.to_nat j) c); [|exact Hc].
    now rewrite length_negate.
Qed.

(** X24: [x] and [cx] with indices in [0, n_qubits) take the map of a
    basis state to the map of a basis state: [x(j)] to the one with bit
    [j] negated, [cx(j, k)] to the one with bit [k] negated when bit [j]
    is set and to the same one otherwise.  The map [__init__] builds is
    that of the basis state of all zeros. *)
Theorem classical_gates_on_basis_state (st : State RC) (b : bitarray)
    (l : list (entry RC)) (j k : Z) :
  state st = of_list l ->
  basis_entries (Z.to_nat (n_qubits st)) b l ->
  (0 <= j < n_qubits st)%Z -> (0 <= k < n_qubits st)%Z ->
  (exists l',
     state (x j st) = of_list l' /\
     basis_entries (Z.to_nat (n_qubits st)) (negate (Z.to_nat j) b) l') /\
  (exists l',
     state (cx j k st) = of_list l' /\
     basis_entries (Z.to_nat (n_qubits st))
       (if bit (Z.to_nat j) b then negate (Z.to_nat k) b else b) l') /\
  basis_entries (Z.to_nat (n_qubits st))
    (repeat false (Z.to_nat (n_qubits st)))
    (initial_entries (Z.to_nat (n_qubits st))).
Proof.
  intros El Hl Hj Hk. split; [now apply (x_basis st b l j)|].
  split; [now apply (cx_basis st b l j k)|].
  apply initial_entries_basis.
Qed.

Lemma classical_gates_on_basis_state_witness :
  exists st,
    construct (C := RC) 2 0 = Ok st /\
    (exists l',
       state (x 0 st) = of_list l' /\
       basis_entries 2 [true; false] l') /\
    (exists l',
       state (cx 0 1 st) = of_list l' /\
       basis_entries 2 [false; false] l') /\
    basis_entries 2 [false; false] (initial_entries 2).
Proof.
  destruct (construct_ok (C := RC) 2 0) as [st [E [En [_ [Es _]]]]];
    try lia.
  exists st. split; [exact E|].
  pose proof (classical_gates_on_basis_state st (repeat false 2)
                (initial_entries 2) 0 1 Es) as H.
  rewrite En in H. apply H; try lia.
  apply (initial_entries_basis 2).
Defined.

Lemma basis_state_measured_witness :
  exists st,
    construct (C := RC) 2 0 = Ok st /\
    fst (run 0 5
           {| cells := fun _ => measure_all (x 1 st); next := 1;
              rng := fun _ => (1 / 2, 0)%R; draws := 0 |})
    = Ok [("01"%string, 5%Z)].
Proof.
  destruct (construct_ok (C := RC) 2 0) as [st [E [En [Eb [Es _]]]]];
    try lia.
  exists st. split; [exact E|].
  destruct (x_basis st (repeat false 2) (initial_entries 2) 1 Es)
    as [l' [El' Hl']].
  { rewrite En. apply (initial_entries_basis 2). }
  { rewrite En. lia. }
  rewrite En in Hl'.
  apply (basis_state_measured
           {| cells := fun _ => measure_all (x 1 st); next := 1;
              rng := fun _ => (1 / 2, 0)%R; draws := 0 |} 0 5
           [false; true] l');
    cbn [cells next rng];
    change (n_qubits (measure_all (x 1 st))) with (n_qubits st);
    change (n_bits (measure_all (x 1 st))) with (n_bits st);
    rewrite ?En, ?Eb; try lia.
  - change (state (measure_all (x 1 st))) with (state (x 1 st)).
    rewrite El'. apply force_of_list.
  - exact Hl'.
  - intros Hf. discriminate Hf.
  - right. reflexivity.
  - intros _. cbn [fst]. lra.
Defined.
